(** * brownie/network/event.py: a shallow embedding and its properties

    The definitions follow the layout of the Python module:
    - [Py]      : the exceptions the module raises or lets through;
    - [Topics]  : the global topic map and [_get_topics];
    - [Events]  : [EventDict] and [_EventItem];
    - [Decode]  : [_decode_ds_note] and [_decode_logs];
    - [Watcher] : [EventWatchData] and [EventWatcher].
    Their properties come after all of them, one module for each:
    [TopicsFacts], [EventsFacts], [DecodeFacts] and [WatcherFacts].

    What the module calls and does not contain is given from outside:
    [eth_event.decode_logs] and brownie's [format_event] are parameters of
    [_decode_logs], a [Contract] is the record of the calls made on it,
    and the clock and the entries a node reports are part of the state the
    watcher runs in. *)

From Stdlib.Strings Require Import Ascii.
From Stdlib.Strings Require Byte.
From Stdlib.QArith Require Import QArith_base.
From stdpp Require Import base option list sorting strings pretty gmap.

Set Default Proof Using "Type".
Set Warnings "-register-all".

(** ** Python exceptions and results *)
Module Py.

(** The exception classes that appear in event.py, with their message where
    the module builds one. *)
Inductive exn :=
| TypeError (msg : string)
| IndexError
| KeyError (key : string)
| ValueError
| AttributeError
| RuntimeError (msg : string)
| EventLookupError (msg : string).

(** A call either returns a value or raises. *)
Inductive result (A : Type) :=
| Return (a : A)
| Raise (e : exn).
Arguments Return {A} a.
Arguments Raise {A} e.

(** The call returned. *)
Definition returns {A} (r : result A) : Prop :=
  match r with
  | Return _ => True
  | Raise _ => False
  end.

(** A function applied to the value a call returned, if any. *)
Definition map_returned {A B} (f : A → B) (r : result (option A))
    : result (option B) :=
  match r with
  | Return a => Return (f <$> a)
  | Raise e => Raise e
  end.
Infix "<$$>" := map_returned (at level 61, left associativity).

End Py.

(** ** Topic maps: [_topics] and [_get_topics] *)
Module Topics.

(** One input of an event ABI: [{"name": .., "type": .., "indexed": ..}]. *)
Record abi_input := AbiInput {
  in_name : string;
  in_type : string;
  in_indexed : bool
}.

(** A topic map entry: [{"name": .., "inputs": [..]}]. *)
Record topic_entry := TopicEntry {
  ev_name : string;
  ev_inputs : list abi_input
}.

#[global] Instance abi_input_eq_dec : EqDecision abi_input.
Proof. solve_decision. Defined.
#[global] Instance topic_entry_eq_dec : EqDecision topic_entry.
Proof. solve_decision. Defined.

(** [next((i for i in entry["inputs"] if i["indexed"]), False)]: the first
    indexed input, [None] standing for the default [False]. *)
Definition next_indexed (entry : topic_entry) : option abi_input :=
  match filter (λ i, in_indexed i = true) (ev_inputs entry) with
  | [] => None
  | i :: _ => Some i
  end.

(** Python's [not] on that value: an input is a non-empty dict, hence
    truthy; only the default [False] is falsy. *)
Definition not_next_indexed (entry : topic_entry) : bool :=
  match next_indexed entry with
  | Some _ => false
  | None => true
  end.

(** The body of the [for key, value in topic_map.items()] loop. *)
Definition merge_step (updated_topics : gmap string topic_entry)
    (item : string * topic_entry) : gmap string topic_entry :=
  let '(key, value) := item in
  match updated_topics !! key with
  | None => <[key := value]> updated_topics
  | Some old =>
      if decide (value = old) then updated_topics
      else if not_next_indexed old then <[key := value]> updated_topics
      else updated_topics
  end.

(** The module state [_get_topics] reads and writes: the global [_topics]
    and the successive contents written to [topics.json]. *)
Record store := Store {
  _topics : gmap string topic_entry;
  topics_json : list (gmap string topic_entry)
}.

(** [{v["name"]: k for k, v in topic_map.items()}] *)
Definition names_to_topics (topic_map : list (string * topic_entry))
    : gmap string string :=
  foldl (λ acc item, <[ev_name item.2 := item.1]> acc) ∅ topic_map.

(** [_get_topics(abi)], on [topic_map = eth_event.get_topic_map(abi)] given
    as the items of that dict in iteration order. [_topics.update(d)] is the
    union that prefers [d]; [json.dump] appends one more file content. *)
Definition _get_topics (topic_map : list (string * topic_entry)) (st : store)
    : gmap string string * store :=
  let updated_topics := foldl merge_step (_topics st) topic_map in
  let st' :=
    if decide (updated_topics ≠ _topics st) then
      {| _topics := updated_topics ∪ _topics st;
         topics_json := topics_json st ++ [updated_topics] |}
    else st in
  (names_to_topics topic_map, st').

(** The global topic map after the call. *)
Definition merged (topic_map : list (string * topic_entry)) (st : store)
    : gmap string topic_entry :=
  _topics (_get_topics topic_map st).2.

(** [True] when the entry has an input flagged as indexed. *)
Definition has_indexed (entry : topic_entry) : bool :=
  existsb in_indexed (ev_inputs entry).

(** What one visit of the loop body leaves at the visited key. *)
Definition merge_entry (old : option topic_entry) (value : topic_entry)
    : topic_entry :=
  match old with
  | None => value
  | Some o =>
      if decide (value = o) then o
      else if has_indexed o then o else value
  end.

(** A global map holding a [Transfer] entry without indexed inputs, and an
    incoming map that brings the indexed definition and a new [Approval]. *)
Definition transfer_plain : topic_entry :=
  TopicEntry "Transfer"
    [AbiInput "from" "address" false; AbiInput "to" "address" false;
     AbiInput "value" "uint256" false].
Definition transfer_indexed : topic_entry :=
  TopicEntry "Transfer"
    [AbiInput "from" "address" true; AbiInput "to" "address" true;
     AbiInput "value" "uint256" false].
Definition approval : topic_entry :=
  TopicEntry "Approval"
    [AbiInput "owner" "address" true; AbiInput "spender" "address" true;
     AbiInput "value" "uint256" false].
Definition plain_store : store :=
  Store {[ "0xddf252ad" := transfer_plain ]} [].
Definition indexed_store : store :=
  Store {[ "0xddf252ad" := transfer_indexed ]} [].
Definition incoming_indexed : list (string * topic_entry) :=
  [("0xddf252ad", transfer_indexed); ("0x8c5be1e5", approval)].
Definition incoming_plain : list (string * topic_entry) :=
  [("0xddf252ad", transfer_plain)].

(** Successive calls of [_get_topics], one per ABI, on the store they
    share. *)
Definition get_topics_calls (abis : list (list (string * topic_entry)))
    (st : store) : store :=
  foldl (λ st topic_map, (_get_topics topic_map st).2) st abis.

(** [topics.json] as the module finds it when it is imported. *)
Inductive cache_file :=
| Missing
| Unreadable
| Holding (content : gmap string topic_entry).

(** The last statements of the module: [_topics] becomes what
    [topics.json] holds, and stays empty when the file is missing
    ([FileNotFoundError]) or is no JSON ([JSONDecodeError]). Nothing has
    been written yet. *)
Definition load_topics (file : cache_file) : store :=
  match file with
  | Holding content => Store content []
  | Missing | Unreadable => Store ∅ []
  end.

(** The file once the store is [st]: the last content written, or the file
    as it was found when nothing was written. *)
Definition file_after (file : cache_file) (st : store) : cache_file :=
  match last (topics_json st) with
  | Some content => Holding content
  | None => file
  end.

(** [_add_deployment_topics(address, abi)] on the global
    [_deployment_topics], for [topic_map = eth_event.get_topic_map(abi)]. *)
Definition _add_deployment_topics (address : string)
    (topic_map : gmap string topic_entry)
    (_deployment_topics : gmap string (gmap string topic_entry))
    : gmap string (gmap string topic_entry) :=
  <[address := topic_map]> _deployment_topics.

End Topics.

(** ** [EventDict] and [_EventItem] *)
Module Events.
Import Py.

(** Decoded argument values; the containers never look inside them. *)
Inductive value :=
| VInt (n : Z)
| VStr (s : string)
| VBool (b : bool)
| VSeq (l : list value).

(** One decoded argument: [{"name", "type", "value", "decoded"}]. *)
Record datum := Datum {
  d_name : string;
  d_type : string;
  d_value : value;
  d_decoded : bool
}.

(** One decoded event, as [eth_event] and [format_event] hand it over:
    [{"name", "address", "decoded", "data"}]. *)
Record event := Event {
  e_name : string;
  e_address : string;
  e_decoded : bool;
  e_data : list datum
}.

(** [collections.OrderedDict] with string keys: the items in insertion
    order, keys pairwise distinct. *)
Definition ordered_dict := list (string * value).

(** [od[k] = v]: overwrite in place, or append. *)
Fixpoint od_set (od : ordered_dict) (k : string) (v : value) : ordered_dict :=
  match od with
  | [] => [(k, v)]
  | (k', v') :: rest =>
      if decide (k = k') then (k', v) :: rest else (k', v') :: od_set rest k v
  end.

(** [OrderedDict(pairs)] *)
Definition OrderedDict (pairs : list (string * value)) : ordered_dict :=
  foldl (λ od kv, od_set od kv.1 kv.2) [] pairs.

(** [od.get(k)] *)
Fixpoint od_get (od : ordered_dict) (k : string) : option value :=
  match od with
  | [] => None
  | (k', v') :: rest => if decide (k = k') then Some v' else od_get rest k
  end.

(** [k in od] *)
Definition od_contains (od : ordered_dict) (k : string) : bool :=
  bool_decide (is_Some (od_get od k)).

(** [od[k]] *)
Definition od_getitem (od : ordered_dict) (k : string) : result value :=
  match od_get od k with
  | Some v => Return v
  | None => Raise (KeyError k)
  end.

(** [_EventItem]: [name], [address] ([None] for a group), [_ordered] and
    [pos]. The elements of [_ordered] are OrderedDicts in the items
    [EventDict] builds one per event, and those items themselves in the
    items it builds one per name. *)
Inductive _EventItem :=
| EventItem (name : string) (address : option string)
    (_ordered : list (ordered_dict + _EventItem)) (pos : list nat).

Definition name (it : _EventItem) : string :=
  match it with EventItem n _ _ _ => n end.
Definition address (it : _EventItem) : option string :=
  match it with EventItem _ a _ _ => a end.
Definition _ordered (it : _EventItem) : list (ordered_dict + _EventItem) :=
  match it with EventItem _ _ o _ => o end.
Definition pos (it : _EventItem) : list nat :=
  match it with EventItem _ _ _ p => p end.

(** [s.replace(" (indexed)", "")]: occurrences are removed from left to
    right without overlap; [skip] counts the characters of a matched
    occurrence still to drop. *)
Fixpoint replace_indexed_from (skip : nat) (s : string) : string :=
  match s with
  | EmptyString => EmptyString
  | String c s' =>
      match skip with
      | S n => replace_indexed_from n s'
      | O =>
          if String.prefix " (indexed)" s then replace_indexed_from 9 s'
          else String c (replace_indexed_from 0 s')
      end
  end.
Definition replace_indexed (s : string) : string := replace_indexed_from 0 s.

(** [_EventItem.__contains__]: [name in self._ordered[0]]. *)
Fixpoint contains (it : _EventItem) (key : string) : result bool :=
  match it with
  | EventItem _ _ ordered _ =>
      match ordered with
      | [] => Raise IndexError
      | inl od :: _ => Return (od_contains od key)
      | inr first :: _ => contains first key
      end
  end.

(** [_EventItem.keys] (a [ReturnValue], read here as the list it wraps). *)
Fixpoint keys (it : _EventItem) : result (list string) :=
  match it with
  | EventItem _ _ ordered _ =>
      match ordered with
      | [] => Raise IndexError
      | inl od :: _ => Return (replace_indexed <$> od.*1)
      | inr first :: _ =>
          match keys first with
          | Return ks => Return (replace_indexed <$> ks)
          | Raise e => Raise e
          end
      end
  end.

(** The message of the [EventLookupError] for an unknown field. *)
Definition unknown_key_message (key name : string) (valid_keys : list string)
    : string :=
  "Unknown key '" +:+ key +:+ "' - the '" +:+ name
    +:+ "' event includes these keys: " +:+ String.concat ", " valid_keys.

(** The last three statements of [__getitem__], taken when neither lookup
    succeeded. *)
Definition raise_unknown_key (it : _EventItem) (key : string) : result value :=
  match keys it with
  | Return valid_keys =>
      Raise (EventLookupError (unknown_key_message key (name it) valid_keys))
  | Raise e => Raise e
  end.

(** [_EventItem.__getitem__] for a [str] key. *)
Fixpoint getitem_str (it : _EventItem) (key : string) : result value :=
  match it with
  | EventItem _ _ ordered _ =>
      match ordered with
      | [] => Raise IndexError
      | inl od :: _ =>
          if od_contains od key then od_getitem od key
          else if od_contains od (key +:+ " (indexed)")
          then od_getitem od (key +:+ " (indexed)")
          else raise_unknown_key it key
      | inr first :: _ =>
          match contains first key with
          | Raise e => Raise e
          | Return true => getitem_str first key
          | Return false =>
              match contains first (key +:+ " (indexed)") with
              | Raise e => Raise e
              | Return true => getitem_str first (key +:+ " (indexed)")
              | Return false => raise_unknown_key it key
              end
          end
      end
  end.

(** A subscript: an [int], a [str], or a value of another type. *)
Inductive subscript :=
| KInt (i : Z)
| KStr (s : string)
| KOther (type_name : string).

(** What a subscript yields: a field value, or a member of [_ordered]. *)
Inductive item :=
| Field (v : value)
| Member (m : ordered_dict + _EventItem).

(** [l[i]] for a Python list and an [int]: negative indexes count from the
    end. *)
Definition list_getitem {A} (l : list A) (i : Z) : option A :=
  if bool_decide (0 ≤ i)%Z then l !! Z.to_nat i
  else if bool_decide (- Z.of_nat (length l) ≤ i)%Z
  then l !! Z.to_nat (Z.of_nat (length l) + i)
  else None.

(** Decimal rendering of a length, for the messages. *)
Definition str_of_nat (n : nat) : string := pretty n.

(** [_EventItem.__getitem__] *)
Definition getitem (it : _EventItem) (key : subscript) : result item :=
  match key with
  | KOther ty =>
      Raise (TypeError ("Invalid key type '" +:+ ty
                          +:+ "' - can only use strings or integers"))
  | KInt i =>
      match list_getitem (_ordered it) i with
      | Some m => Return (Member m)
      | None =>
          Raise (EventLookupError
                   ("Index out of range - only "
                      +:+ str_of_nat (length (_ordered it))
                      +:+ " '" +:+ name it +:+ "' events fired"))
      end
  | KStr s =>
      match getitem_str it s with
      | Return v => Return (Field v)
      | Raise e => Raise e
      end
  end.

(** [EventDict]: [_ordered] and the OrderedDict [_dict], the latter as its
    items in insertion order. *)
Record EventDict := MkEventDict {
  ed_ordered : list _EventItem;
  ed_dict : list (string * _EventItem)
}.

(** The first comprehension of [EventDict.__init__]. *)
Definition single (position : nat) (i : event) : _EventItem :=
  EventItem (e_name i) (Some (e_address i))
    [inl (OrderedDict ((λ x, (d_name x, d_value x)) <$> e_data i))]
    [position].

(** [i.pos[0]]; every item of [_ordered] carries a one-element [pos]. *)
Definition pos0 (it : _EventItem) : nat := hd 0 (pos it).

(** [name in self._dict] *)
Definition dict_contains (d : list (string * _EventItem)) (n : string) : bool :=
  bool_decide (n ∈ d.*1).

(** The body of [for event in self._ordered]. *)
Definition group_step (ordered : list _EventItem)
    (d : list (string * _EventItem)) (ev : _EventItem)
    : list (string * _EventItem) :=
  if dict_contains d (name ev) then d
  else
    let events := filter (λ i, name i = name ev) ordered in
    d ++ [(name ev, EventItem (name ev) None (inr <$> events) (pos0 <$> events))].

(** [EventDict.__init__(events)] ([None] is the empty list). *)
Definition EventDict_init (events : list event) : EventDict :=
  let ordered := imap single events in
  MkEventDict ordered (foldl (group_step ordered) [] ordered).

(** [EventDict.__len__] *)
Definition len (ed : EventDict) : nat := length (ed_ordered ed).

(** [EventDict.count] *)
Definition count (ed : EventDict) (n : string) : nat :=
  length (name <$> filter (λ i, name i = n) (ed_ordered ed)).

(** [EventDict.keys] *)
Definition ed_keys (ed : EventDict) : list string := (ed_dict ed).*1.

(** [EventDict.__contains__] *)
Definition ed_contains (ed : EventDict) (n : string) : bool :=
  bool_decide (n ∈ name <$> ed_ordered ed).

(** [EventDict.__getitem__] *)
Definition ed_getitem (ed : EventDict) (key : subscript) : result _EventItem :=
  match key with
  | KOther ty =>
      Raise (TypeError ("Invalid key type '" +:+ ty
                          +:+ "' - can only use strings or integers"))
  | KInt i =>
      match list_getitem (ed_ordered ed) i with
      | Some it => Return it
      | None =>
          Raise (EventLookupError
                   ("Index out of range - only "
                      +:+ str_of_nat (length (ed_ordered ed)) +:+ " events fired"))
      end
  | KStr s =>
      match list_find (λ kv, kv.1 = s) (ed_dict ed) with
      | Some (_, (_, group)) => Return group
      | None => Raise (EventLookupError ("Event '" +:+ s +:+ "' did not fire."))
      end
  end.

(** The OrderedDict of the first firing: the head of [_ordered], read
    through the items a group holds. *)
Fixpoint first_firing (it : _EventItem) : option ordered_dict :=
  match it with
  | EventItem _ _ ordered _ =>
      match ordered with
      | [] => None
      | inl od :: _ => Some od
      | inr first :: _ => first_firing first
      end
  end.

(** How many times [_ordered[0]] has to be followed to reach it. *)
Fixpoint nesting (it : _EventItem) : nat :=
  match it with
  | EventItem _ _ ordered _ =>
      match ordered with
      | inr first :: _ => S (nesting first)
      | _ => 0
      end
  end.

(** The names [keys()] lists for a first firing [od] read through
    [levels] items. *)
Definition listed_keys (levels : nat) (od : ordered_dict) : list string :=
  Nat.iter levels (fmap replace_indexed) od.*1.

(** What the lookup of a field name in the first firing [od] gives. *)
Definition field_lookup (group_name : string) (levels : nat)
    (od : ordered_dict) (key : string) : result value :=
  match od_get od key with
  | Some v => Return v
  | None =>
      match od_get od (key +:+ " (indexed)") with
      | Some v => Return v
      | None =>
          Raise (EventLookupError
                   (unknown_key_message key group_name (listed_keys levels od)))
      end
  end.

(** Three decoded events of one transaction: two [Transfer], whose [memo]
    argument stayed undecoded and carries the suffix, around one
    [Approval]. *)
Definition transfer_event (amount : Z) : event :=
  Event "Transfer" "0xA1" true
    [Datum "from" "address" (VStr "0x01") true;
     Datum "memo (indexed)" "bytes32" (VStr "0xfeed") false;
     Datum "value" "uint256" (VInt amount) true].
Definition approval_event : event :=
  Event "Approval" "0xB2" true
    [Datum "owner" "address" (VStr "0x01") true;
     Datum "value" "uint256" (VInt 7) true].
Definition sample_events : list event :=
  [transfer_event 100; approval_event; transfer_event 250].
Definition sample_od (amount : Z) : ordered_dict :=
  [("from", VStr "0x01"); ("memo (indexed)", VStr "0xfeed");
   ("value", VInt amount)].
Definition sample_group : _EventItem :=
  EventItem "Transfer" None
    [inr (EventItem "Transfer" (Some "0xA1") [inl (sample_od 100)] [0]);
     inr (EventItem "Transfer" (Some "0xA1") [inl (sample_od 250)] [2])]
    [0; 2].

(** [EventDict.__bool__] *)
Definition ed_bool (ed : EventDict) : bool :=
  bool_decide (ed_ordered ed ≠ []).

(** [EventDict.items] and [EventDict.values] *)
Definition ed_items (ed : EventDict) : list (string * _EventItem) := ed_dict ed.
Definition ed_values (ed : EventDict) : list _EventItem := (ed_dict ed).*2.

(** [_EventItem.__len__] *)
Definition item_len (it : _EventItem) : nat := length (_ordered it).

(** The names of a list, each once, in the order in which they first
    occur. *)
Fixpoint first_occurrences (names : list string) : list string :=
  match names with
  | [] => []
  | n :: rest => n :: filter (λ m, m ≠ n) (first_occurrences rest)
  end.

(** The item [EventDict.__init__] files under the name [n]: the items of
    [_ordered] that bear the name, and their positions. *)
Definition group_of (ordered : list _EventItem) (n : string) : _EventItem :=
  EventItem n None (inr <$> filter (λ i, name i = n) ordered)
    (pos0 <$> filter (λ i, name i = n) ordered).

End Events.

(** ** Log decoding: [_decode_ds_note] and [_decode_logs] *)
Module Decode.
Import Py Topics.

#[global] Instance byte_eq_dec : EqDecision Byte.byte := Byte.byte_eq_dec.

(** A log entry as the node returns it (a [LogReceipt]): the keys the
    module reads, [address], [topics] (each a [HexBytes]) and [data] (a hex
    string), and the two keys that order the entries of a chain,
    [blockNumber] and [logIndex]. Entries are compared with [==], that is,
    key by key. *)
Record log := Log {
  address : string;
  topics : list (list Byte.byte);
  data : string;
  blockNumber : N;
  logIndex : N
}.

#[global] Instance log_eq_dec : EqDecision log.
Proof. solve_decision. Defined.

(** What [eth_event.decode_logs] returns for one entry, before
    [format_event]: a decoded event, or, for a topic it cannot resolve,
    the raw topics and data with [name] set to [None]. *)
Inductive raw_event :=
| Decoded (ev : Events.event)
| Undecoded (addr : string) (raw_topics : list string) (raw_data : string).

(** *** Bytes and hex strings *)

(** The lower-case hexadecimal digit of a value below 16. *)
Definition hex_char (n : N) : Ascii.ascii :=
  ascii_of_N (if (n <? 10)%N then 48 + n else 87 + n)%N.

Definition hex_of_byte (b : Byte.byte) : string :=
  String (hex_char (Byte.to_N b / 16)) (String (hex_char (Byte.to_N b mod 16)) "").

(** [HexBytes.hex()]: the digits behind a ["0x"] prefix. *)
Definition hex (bs : list Byte.byte) : string :=
  "0x" +:+ String.concat "" (hex_of_byte <$> bs).

(** The value of a hexadecimal digit, from its character code: ['0'-'9']
    are 48 to 57, ['A'-'F'] 65 to 70 and ['a'-'f'] 97 to 102. *)
Definition hex_digit (c : Ascii.ascii) : option N :=
  let code := N_of_ascii c in
  if ((48 <=? code) && (code <=? 57))%N then Some (code - 48)%N
  else if ((65 <=? code) && (code <=? 70))%N then Some (code - 55)%N
  else if ((97 <=? code) && (code <=? 102))%N then Some (code - 87)%N
  else None.

(** ASCII whitespace, which [bytes.fromhex] skips between bytes. *)
Definition is_space (c : Ascii.ascii) : bool :=
  match c with
  | " " | "009" | "010" | "011" | "012" | "013" => true
  | _ => false
  end%char.

Definition byte_of_nibbles (hi lo : N) : Byte.byte :=
  default Byte.x00 (Byte.of_N (16 * hi + lo)).

(** [bytes.fromhex(s)], [None] for its [ValueError]; [hi] is the first
    digit of a byte whose second digit comes next. *)
Fixpoint fromhex_from (hi : option N) (s : string) : option (list Byte.byte) :=
  match s with
  | EmptyString => match hi with None => Some [] | Some _ => None end
  | String c s' =>
      match hi with
      | None =>
          if is_space c then fromhex_from None s'
          else match hex_digit c with
               | Some h => fromhex_from (Some h) s'
               | None => None
               end
      | Some h =>
          match hex_digit c with
          | Some l => (byte_of_nibbles h l ::.) <$> fromhex_from None s'
          | None => None
          end
      end
  end.
Definition fromhex (s : string) : option (list Byte.byte) := fromhex_from None s.

(** [s[n:]] on a string. *)
Fixpoint str_drop (n : nat) (s : string) : string :=
  match n, s with
  | S n', String _ s' => str_drop n' s'
  | _, _ => s
  end.

(** [sum(bs)] *)
Definition py_sum (bs : list Byte.byte) : N :=
  foldr (λ b acc, Byte.to_N b + acc)%N 0%N bs.

(** [haystack.index(needle)] on bytes, [None] for its [ValueError]. *)
Fixpoint bytes_index (haystack needle : list Byte.byte) : option nat :=
  if bool_decide (needle `prefix_of` haystack) then Some 0
  else match haystack with
       | [] => None
       | _ :: rest => S <$> bytes_index rest needle
       end.

(** *** The ds-note decoder *)

(** The part of a brownie [Contract] the decoder uses: [selectors],
    [decode_input], and the [abi["inputs"]] of [get_method_object(sel)]
    as (name, type) pairs. The last two are calls into the contract object
    and may raise. *)
Record contract := Contract {
  selectors : gmap string string;
  decode_input : list Byte.byte → result (string * list Events.value);
  method_inputs : string → result (list (string * string))
}.

(** The body of the [try]: [contract.decode_input(data[data.index(selector):])] *)
Definition try_decode_input (c : contract) (payload selector : list Byte.byte)
    : result (string * list Events.value) :=
  match bytes_index payload selector with
  | None => Raise ValueError
  | Some i => decode_input c (drop i payload)
  end.

(** [_decode_ds_note(log, contract)]; [Return None] is the bare [return]. *)
Definition _decode_ds_note (l : log) (c : contract)
    : result (option raw_event) :=
  match topics l with
  | [] => Raise IndexError
  | topic0 :: _ =>
      let selector := take 4 topic0 in
      let tail := drop 4 topic0 in
      match selectors c !! hex selector with
      | None => Return None
      | Some name =>
          if negb (py_sum tail =? 0)%N then Return None
          else
            match fromhex (str_drop 2 (data l)) with
            | None => Raise ValueError
            | Some payload =>
                match try_decode_input c payload selector with
                | Raise ValueError => Return None
                | Raise e => Raise e
                | Return (func, args) =>
                    match method_inputs c (hex selector) with
                    | Raise e => Raise e
                    | Return inputs =>
                        Return (Some (Decoded
                          (Events.Event name (address l) true
                             (zip_with
                                (λ arg abi, Events.Datum abi.1 abi.2 arg true)
                                args inputs))))
                    end
                end
            end
      end
  end.

(** *** Computations that warn and may raise *)

(** The warnings emitted so far are threaded through; a raised exception
    keeps them. *)
Definition M (A : Type) : Type := list string → result A * list string.

Definition ret {A} (a : A) : M A := λ w, (Return a, w).
Definition raise {A} (e : exn) : M A := λ w, (Raise e, w).
Definition warn (msg : string) : M unit := λ w, (Return tt, w ++ [msg]).
Definition mbind {A B} (m : M A) (k : A → M B) : M B :=
  λ w, match m w with
       | (Return a, w') => k a w'
       | (Raise e, w') => (Raise e, w')
       end.

Notation "'let*' x := m 'in' k" := (mbind m (λ x, k))
  (at level 10, x name, m at level 100, k at level 200).

(** [for x in l: s = f(x, s)] *)
Fixpoint mfold {A S} (f : A → S → M S) (l : list A) (s : S) : M S :=
  match l with
  | [] => ret s
  | x :: rest => let* s' := f x s in mfold f rest s'
  end.

(** *** [_decode_logs] *)

(** [logs[i:j]] for indexes within the list. *)
Definition slice {A} (l : list A) (i j : nat) : list A := take (j - i) (drop i l).

(** [next(i for i in logs if i["address"] != address)], [None] for
    [StopIteration]. *)
Definition next_other (addr : string) (logs : list log) : option log :=
  snd <$> list_find (λ i, address i ≠ addr) logs.

(** [logs.index(x)]: the first position holding an entry equal to [x]. *)
Definition index (logs : list log) (x : log) : option nat :=
  fst <$> list_find (λ i, i = x) logs.

(** The [while True] loop, over what is done with each [log_slice]:
    [on_slice address log_slice] stands for the body between the [try] and
    the final test. The loop runs at most once per entry, which [fuel]
    bounds; [None] is a loop cut short by the bound. *)
Fixpoint scan_loop {S} (on_slice : string → list log → S → M S)
    (logs : list log) (fuel idx : nat) (s : S) : M (option S) :=
  match fuel with
  | 0 => ret None
  | S fuel' =>
      match logs !! idx with
      | None => raise IndexError
      | Some first =>
          let addr := address first in
          match
            match next_other addr (drop idx logs) with
            | Some other =>
                match index logs other with
                | Some new_idx => Return (slice logs idx new_idx, new_idx)
                | None => Raise ValueError
                end
            | None => Return (drop idx logs, idx)
            end
          with
          | Raise e => raise e
          | Return (log_slice, idx') =>
              let* s' := on_slice addr log_slice s in
              match last log_slice, last logs with
              | Some a, Some b =>
                  if decide (a = b) then ret (Some s')
                  else scan_loop on_slice logs fuel' idx' s'
              | _, _ => raise IndexError
              end
          end
      end
  end.

(** The external decoders: [eth_event.decode_logs([item], topics_map,
    allow_undecoded=True)], which returns events or raises an [EventError]
    (given here by its message), and brownie's [format_event]. *)
Section decode_logs.
Variable eth_event_decode_logs :
  gmap string topic_entry → log → string + list raw_event.
Variable format_event : raw_event → Events.event.

(** The globals [_deployment_topics] and [_topics]. *)
Variable _deployment_topics : gmap string (gmap string topic_entry).
Variable _topics : gmap string topic_entry.

(** [contracts and contracts[item.address]]: [None] when that value is
    falsy, the contract when it is one; a missing key raises. *)
Definition contract_of (contracts : option (gmap string (option contract)))
    (item : log) : result (option contract) :=
  match contracts with
  | None => Return None
  | Some cs =>
      if decide (cs = ∅) then Return None
      else match cs !! address item with
           | Some c => Return c
           | None => Raise (KeyError (address item))
           end
  end.

(** The [try] around [eth_event.decode_logs]. *)
Definition decode_standard (topics_map : gmap string topic_entry)
    (addr : string) (item : log) (events : list raw_event)
    : M (list raw_event) :=
  match eth_event_decode_logs topics_map item with
  | inr decoded => ret (events ++ decoded)
  | inl exc => let* _ := warn (addr +:+ ": " +:+ exc) in ret events
  end.

(** The [note] of the loop body: that of [_decode_ds_note] when a contract
    is at hand for the entry, none otherwise. *)
Definition special_decode (contracts : option (gmap string (option contract)))
    (item : log) : result (option raw_event) :=
  match contract_of contracts item with
  | Raise e => Raise e
  | Return None => Return None
  | Return (Some c) => _decode_ds_note item c
  end.

(** The body of [for item in log_slice]. *)
Definition decode_item (contracts : option (gmap string (option contract)))
    (topics_map : gmap string topic_entry) (addr : string) (item : log)
    (events : list raw_event) : M (list raw_event) :=
  match special_decode contracts item with
  | Raise e => raise e
  | Return (Some note) => ret (events ++ [note])
  | Return None => decode_standard topics_map addr item events
  end.

(** [topics_map = _deployment_topics.get(address, _topics)] and the [for]
    loop over the slice. *)
Definition decode_slice (contracts : option (gmap string (option contract)))
    (addr : string) (log_slice : list log) (events : list raw_event)
    : M (list raw_event) :=
  let topics_map := default _topics (_deployment_topics !! addr) in
  mfold (decode_item contracts topics_map addr) log_slice events.

(** [_decode_logs(logs, contracts)]: the events decoded, with the warnings
    emitted; the outer [None] is the loop bound being hit. *)
Definition _decode_logs (logs : list log)
    (contracts : option (gmap string (option contract)))
    : M (option Events.EventDict) :=
  match logs with
  | [] => ret (Some (Events.EventDict_init []))
  | _ =>
      let* r := scan_loop (decode_slice contracts) logs (length logs) 0 [] in
      ret ((λ events, Events.EventDict_init (format_event <$> events)) <$> r)
  end.

(** Each entry decoded on its own, with the topic map of its own address,
    from first to last. *)
Definition decode_each (contracts : option (gmap string (option contract)))
    (logs : list log) : M (list raw_event) :=
  mfold (λ item, decode_slice contracts (address item) [item]) logs [].

(** The whole input decoded entry by entry, and the EventDict built from
    the events in that order. *)
Definition in_order (contracts : option (gmap string (option contract)))
    (logs : list log) : M (option Events.EventDict) :=
  let* events := decode_each contracts logs in
  ret (Some (Events.EventDict_init (format_event <$> events))).

(** What the standard decoder contributes for one entry: its events, or
    nothing and a warning. *)
Definition standard_events (item : log) : list raw_event :=
  match eth_event_decode_logs
          (default _topics (_deployment_topics !! address item)) item with
  | inr decoded => decoded
  | inl _ => []
  end.
Definition standard_warnings (item : log) : list string :=
  match eth_event_decode_logs
          (default _topics (_deployment_topics !! address item)) item with
  | inr _ => []
  | inl exc => [address item +:+ ": " +:+ exc]
  end.

(** What one entry contributes: its note when the special decoder gives
    one, what the standard decoder contributes otherwise. *)
Definition entry_events (contracts : option (gmap string (option contract)))
    (item : log) : list raw_event :=
  match special_decode contracts item with
  | Return (Some note) => [note]
  | _ => standard_events item
  end.
Definition entry_warnings (contracts : option (gmap string (option contract)))
    (item : log) : list string :=
  match special_decode contracts item with
  | Return (Some note) => []
  | _ => standard_warnings item
  end.

End decode_logs.


(** The maximal contiguous runs of entries with the same address. *)
Fixpoint runs (logs : list log) : list (list log) :=
  match logs with
  | [] => []
  | x :: rest =>
      match runs rest with
      | (y :: run) :: others =>
          if decide (address x = address y) then (x :: y :: run) :: others
          else [x] :: (y :: run) :: others
      | _ => [[x]]
      end
  end.

(** The address a run is decoded under: that of its first entry. *)
Definition run_address (run : list log) : string :=
  match run with
  | x :: _ => address x
  | [] => ""
  end.

(** A body run over a list of runs, one after the other. *)
Definition over_runs {S} (on_slice : string → list log → S → M S)
    (rs : list (list log)) (s : S) : M (option S) :=
  let* s' := mfold (λ run, on_slice (run_address run) run) rs s in
  ret (Some s').



(** *** The external decoders *)

(** Big-endian value of a word. *)
Definition int_of_bytes (bs : list Byte.byte) : Z :=
  Z.of_N (foldl (λ acc b, acc * 256 + Byte.to_N b)%N 0%N bs).

(** The first [count] 32-byte words of a payload. *)
Fixpoint words (count : nat) (payload : list Byte.byte)
    : list (list Byte.byte) :=
  match count with
  | 0 => []
  | S count' => take 32 payload :: words count' (drop 32 payload)
  end.

(** Modelled from the spec: the ABI decoding of the arguments of a resolved
    topic, which [eth_event] performs and this module does not contain.
    The spec only says that malformed data for a known topic is a decode
    error; here every argument is one 32-byte word, indexed ones read from
    the remaining topics and the others from the data, and a shortage or a
    surplus of words is the error. *)
Fixpoint decode_words (inputs : list abi_input)
    (indexed payload : list (list Byte.byte)) : option (list Events.datum) :=
  match inputs with
  | [] =>
      match indexed, payload with
      | [], [] => Some []
      | _, _ => None
      end
  | i :: rest =>
      if in_indexed i then
        match indexed with
        | t :: indexed' =>
            (Events.Datum (in_name i) (in_type i)
               (Events.VInt (int_of_bytes t)) true ::.)
              <$> decode_words rest indexed' payload
        | [] => None
        end
      else
        match payload with
        | w :: payload' =>
            (Events.Datum (in_name i) (in_type i)
               (Events.VInt (int_of_bytes w)) true ::.)
              <$> decode_words rest indexed payload'
        | [] => None
        end
  end.

(** Modelled from the spec: [eth_event.decode_logs([item], topics_map,
    allow_undecoded=True)], which this module calls and does not contain.
    In the spec's words, unresolvable topics decode with placeholder
    unnamed fields rather than failing, and a structural decode error
    (malformed data for a known topic) is reported to the caller. *)
Definition standard_decode (topics_map : gmap string topic_entry) (item : log)
    : string + list raw_event :=
  match topics item with
  | [] => inr [Undecoded (address item) [] (data item)]
  | topic0 :: indexed =>
      match topics_map !! hex topic0 with
      | None => inr [Undecoded (address item) (hex <$> topics item) (data item)]
      | Some entry =>
          match fromhex (str_drop 2 (data item)) with
          | None => inl "Invalid log data"
          | Some payload =>
              if bool_decide (length payload `mod` 32 = 0) then
                match decode_words (ev_inputs entry) indexed
                        (words (length payload `div` 32) payload) with
                | Some args =>
                    inr [Decoded (Events.Event (ev_name entry) (address item)
                                    true args)]
                | None => inl "Invalid log data"
                end
              else inl "Invalid log data"
          end
      end
  end.

(** Modelled from the spec: brownie's [format_event], which lives in
    [brownie.convert.normalize]. The spec treats it as the identity on
    decoded events; an unresolved entry becomes an event of placeholder
    fields, one per topic and one for the data. *)
Definition format_event_model (ev : raw_event) : Events.event :=
  match ev with
  | Decoded ev => ev
  | Undecoded addr raw_topics raw_data =>
      Events.Event "(unknown)" addr false
        (imap (λ i t, Events.Datum ("topic" +:+ pretty (S i)) "bytes32"
                        (Events.VStr t) false) raw_topics
           ++ [Events.Datum "data" "bytes" (Events.VStr raw_data) false])
  end.

(** *** Sample logs *)

Definition word_of (n : N) : list Byte.byte :=
  replicate 31 Byte.x00 ++ [default Byte.x00 (Byte.of_N n)].

(** A topic that the sample topic map resolves to [Transfer], and one it
    does not know. *)
Definition transfer_topic : list Byte.byte :=
  [Byte.xdd; Byte.xf2; Byte.x52; Byte.xad].
Definition unknown_topic : list Byte.byte :=
  [Byte.x12; Byte.x34; Byte.x56; Byte.x78].
Definition sample_topics : gmap string topic_entry :=
  {[ "0xddf252ad" := transfer_indexed ]}.

(** A well-formed [Transfer] of 100 units at position [i] of block 7. *)
Definition transfer_log (addr : string) (i : N) : log :=
  Log addr [transfer_topic; word_of 1; word_of 2]
    "0x0000000000000000000000000000000000000000000000000000000000000064" 7 i.
(** A [Transfer] whose data is cut short. *)
Definition malformed_log (addr : string) (i : N) : log :=
  Log addr [transfer_topic; word_of 1; word_of 2] "0x0064" 7 i.
(** An entry with a topic absent from every topic map. *)
Definition unknown_log (addr : string) (i : N) : log :=
  Log addr [unknown_topic] "0x" 7 i.
(** An entry of an anonymous event without indexed arguments. *)
Definition anonymous_log (addr : string) (i : N) : log :=
  Log addr [] "0x" 7 i.


(** A contract that knows the selector [0x12345678] as [rely(address)]
    and reads the word behind the selector as its argument. *)
Definition sample_contract : contract :=
  Contract {[ "0x12345678" := "rely" ]}
    (λ calldata,
       if bool_decide (length calldata = 36) then
         Return ("rely(address)", [Events.VInt (int_of_bytes (drop 4 calldata))])
       else Raise ValueError)
    (λ _, Return [("usr", "address")]).

(** A ds-note entry of that contract: selector and zero padding as first
    topic, the call data behind one word of offset in the data. *)
Definition note_log (addr : string) (i : N) : log :=
  Log addr [unknown_topic ++ replicate 28 Byte.x00]
    ("0x0000000000000000000000000000000000000000000000000000000000000020"
       +:+ "12345678"
       +:+ "0000000000000000000000000000000000000000000000000000000000000009")
    7 i.

(** The length of the EventDict a call returned, if it returned one. *)
Definition decoded_len (r : result (option Events.EventDict) * list string)
    : option nat :=
  match r.1 with
  | Return (Some ed) => Some (Events.len ed)
  | _ => None
  end.

End Decode.

(** ** The event watcher: [EventWatchData] and [EventWatcher] *)
Module Watcher.
Import Py.

(** Seconds, as [time.time()] and the delays give them; the floats are
    taken as the rationals they stand for. *)
Abbreviation seconds := Q.

(** [min] and [max] of two numbers, as Python picks them. *)
Definition py_min (a b : seconds) : seconds :=
  if Qle_bool a b then a else b.
Definition py_max (a b : seconds) : seconds :=
  if Qle_bool b a then a else b.

(** The [callback] argument of a registration: something callable, named
    here so that its calls can be told apart, or anything else. *)
Inductive py_callback :=
| Callable (name : string)
| NotCallable.

(** A web3 [LogFilter]: the block it starts from and the entries the node
    holds for it that no poll has returned yet. *)
Record LogFilter := MkLogFilter {
  fromBlock : Z;
  new_entries : list Decode.log
}.

(** [EventWatchData]; [event] is given by the name of the contract event. *)
Record EventWatchData := MkEventWatchData {
  event : string;
  callback : string;
  delay : seconds;
  repeat : bool;
  _event_filter : LogFilter;
  _cooldown_time_over : bool;
  last_trigger_time : seconds
}.

Definition set_cooldown_time_over (value : bool) (d : EventWatchData)
    : EventWatchData :=
  MkEventWatchData (event d) (callback d) (delay d) (repeat d)
    (_event_filter d) value (last_trigger_time d).
Definition set_last_trigger_time (t : seconds) (d : EventWatchData)
    : EventWatchData :=
  MkEventWatchData (event d) (callback d) (delay d) (repeat d)
    (_event_filter d) (_cooldown_time_over d) t.
Definition set_event_filter (f : LogFilter) (d : EventWatchData)
    : EventWatchData :=
  MkEventWatchData (event d) (callback d) (delay d) (repeat d)
    f (_cooldown_time_over d) (last_trigger_time d).

(** The getter of the property [cooldown_time_over], at clock reading
    [current_time]: the value read and the object after the read. *)
Definition cd_time_over_getter (current_time : seconds) (d : EventWatchData)
    : bool * EventWatchData :=
  let timer_value := (current_time - last_trigger_time d)%Q in
  let d' :=
    if Qle_bool (delay d) timer_value then set_cooldown_time_over true d
    else d in
  (_cooldown_time_over d', d').

(** [check_timer], at clock reading [current_time]. *)
Definition check_timer (current_time : seconds) (d : EventWatchData)
    : seconds * EventWatchData :=
  let time_since_last_trigger := (current_time - last_trigger_time d)%Q in
  let d' :=
    if Qle_bool (delay d) time_since_last_trigger
    then set_cooldown_time_over true d
    else d in
  ((delay d - time_since_last_trigger)%Q, d').

(** [get_new_events]: the filter hands over its new entries and keeps
    none. *)
Definition get_new_events (d : EventWatchData)
    : list Decode.log * EventWatchData :=
  (new_entries (_event_filter d),
   set_event_filter (MkLogFilter (fromBlock (_event_filter d)) []) d).

(** A [threading.Thread]. *)
Inductive thread := Unstarted | Running | Joined.

(** [EventWatcher] and what it acts on. The [EventWatchData] objects are
    shared between the list, the queued tasks and the running callbacks,
    so they live in [objects] and are referred to by their key. [_queue]
    holds the tasks as (object of the bound [_trigger_callback],
    [events_data]). [clock] gives the successive readings of
    [time.time()], [reads] counts those made; [calls] lists the callback
    invocations; [block_number] is [web3.eth.block_number]. *)
Record EventWatcher := MkEventWatcher {
  objects : gmap nat EventWatchData;
  target_events_watch_data : list nat;
  _queue : list (nat * list Decode.log);
  _kill : bool;
  _has_started : bool;
  _watcher_thread : thread;
  _callback_thread : thread;
  clock : nat → seconds;
  reads : nat;
  calls : list (string * Decode.log);
  block_number : Z
}.

Definition with_objects (o : gmap nat EventWatchData) (w : EventWatcher) :=
  MkEventWatcher o (target_events_watch_data w) (_queue w) (_kill w)
    (_has_started w) (_watcher_thread w) (_callback_thread w)
    (clock w) (reads w) (calls w) (block_number w).
Definition with_targets (l : list nat) (w : EventWatcher) :=
  MkEventWatcher (objects w) l (_queue w) (_kill w)
    (_has_started w) (_watcher_thread w) (_callback_thread w)
    (clock w) (reads w) (calls w) (block_number w).
Definition with_queue (q : list (nat * list Decode.log)) (w : EventWatcher) :=
  MkEventWatcher (objects w) (target_events_watch_data w) q (_kill w)
    (_has_started w) (_watcher_thread w) (_callback_thread w)
    (clock w) (reads w) (calls w) (block_number w).
Definition with_kill (k : bool) (w : EventWatcher) :=
  MkEventWatcher (objects w) (target_events_watch_data w) (_queue w) k
    (_has_started w) (_watcher_thread w) (_callback_thread w)
    (clock w) (reads w) (calls w) (block_number w).
Definition with_threads (started : bool) (t1 t2 : thread) (w : EventWatcher) :=
  MkEventWatcher (objects w) (target_events_watch_data w) (_queue w) (_kill w)
    started t1 t2 (clock w) (reads w) (calls w) (block_number w).
Definition with_reads (n : nat) (w : EventWatcher) :=
  MkEventWatcher (objects w) (target_events_watch_data w) (_queue w) (_kill w)
    (_has_started w) (_watcher_thread w) (_callback_thread w)
    (clock w) n (calls w) (block_number w).
Definition with_calls (c : list (string * Decode.log)) (w : EventWatcher) :=
  MkEventWatcher (objects w) (target_events_watch_data w) (_queue w) (_kill w)
    (_has_started w) (_watcher_thread w) (_callback_thread w)
    (clock w) (reads w) c (block_number w).

(** [time.time()] *)
Definition time (w : EventWatcher) : seconds * EventWatcher :=
  (clock w (reads w), with_reads (S (reads w)) w).

(** [EventWatcher.__init__], for a clock and a chain head. *)
Definition EventWatcher_init (clk : nat → seconds) (head : Z) : EventWatcher :=
  MkEventWatcher ∅ [] [] false false Unstarted Unstarted clk 0 [] head.

(** [Thread.join()]: a thread that was never started cannot be joined; a
    running one is waited for. *)
Definition join (t : thread) : result thread :=
  match t with
  | Unstarted => Raise (RuntimeError "cannot join thread before it is started")
  | Running | Joined => Return Joined
  end.

(** [EventWatcher.stop(wait)] *)
Definition stop (wait : bool) (w : EventWatcher) : result unit * EventWatcher :=
  let w := with_kill true w in
  if wait then
    match join (_watcher_thread w) with
    | Raise e => (Raise e, w)
    | Return t1 =>
        let w := with_threads (_has_started w) t1 (_callback_thread w) w in
        match join (_callback_thread w) with
        | Raise e => (Raise e, w)
        | Return t2 =>
            (Return tt, with_threads (_has_started w) (_watcher_thread w) t2 w)
        end
    end
  else (Return tt, w).

(** [_start_threads] *)
Definition _start_threads (w : EventWatcher) : EventWatcher :=
  with_threads true Running Running w.

(** [EventWatchData.__init__] *)
Definition EventWatchData_init (ev callback_name : string) (dly : seconds)
    (rep : bool) (from_block : option Z) (w : EventWatcher)
    : EventWatchData * EventWatcher :=
  let flt := MkLogFilter (default (block_number w - 1)%Z from_block) [] in
  let '(now, w) := time w in
  (MkEventWatchData ev callback_name dly rep flt false now, w).

(** A key no object has yet. *)
Definition fresh_key (w : EventWatcher) : nat :=
  fresh (dom (objects w)).

(** [_add_event_callback] *)
Definition _add_event_callback (ev : string) (cb : py_callback)
    (dly : seconds) (rep : bool) (from_block : option Z) (w : EventWatcher)
    : result unit * EventWatcher :=
  match cb with
  | NotCallable =>
      (Raise (TypeError "Argument 'callback' argument must be a callable."), w)
  | Callable callback_name =>
      let dly := py_max dly (5 # 100) in
      let '(d, w) := EventWatchData_init ev callback_name dly rep from_block w in
      let key := fresh_key w in
      (Return tt,
       with_targets (target_events_watch_data w ++ [key])
         (with_objects (<[key := d]> (objects w)) w))
  end.

(** [add_event_callback] *)
Definition add_event_callback (ev : string) (cb : py_callback)
    (dly : seconds) (rep : bool) (from_block : option Z) (w : EventWatcher)
    : result unit * EventWatcher :=
  let w := if _has_started w then w else _start_threads w in
  _add_event_callback ev cb dly rep from_block w.

(** [_trigger_callback], called on the object with key [key]; the calls of
    the user callback are recorded in order. *)
Definition _trigger_callback (key : nat) (events_data : list Decode.log)
    (w : EventWatcher) : EventWatcher :=
  match objects w !! key with
  | None => w
  | Some d =>
      let d := set_cooldown_time_over false d in
      let '(now, w) := time w in
      let d := set_last_trigger_time now d in
      let w := with_objects (<[key := d]> (objects w)) w in
      with_calls (calls w ++ ((λ data, (callback d, data)) <$> events_data)) w
  end.

(** One sweep of the inner [while] of [_execute_callbacks]: the queued
    tasks are taken and run, first in first out. *)
Definition execute_pass (w : EventWatcher) : EventWatcher :=
  foldl (λ w task, _trigger_callback task.1 task.2 w)
    (with_queue [] w) (_queue w).

(** The body of [for elem in self.target_events_watch_data], on the object
    with key [key]; [sleep_time] is threaded along. *)
Definition visit (acc : EventWatcher * seconds) (key : nat)
    : EventWatcher * seconds :=
  let '(w, sleep_time) := acc in
  match objects w !! key with
  | None => acc
  | Some elem =>
      let '(now, w) := time w in
      let '(over, elem) := cd_time_over_getter now elem in
      if negb over then
        let '(now', w) := time w in
        let '(time_left, elem) := check_timer now' elem in
        (with_objects (<[key := elem]> (objects w)) w,
         py_min sleep_time time_left)
      else
        let '(latest_events, elem) := get_new_events elem in
        let w := with_objects (<[key := elem]> (objects w)) w in
        let w :=
          if bool_decide (length latest_events ≠ 0)
          then with_queue (_queue w ++ [(key, latest_events)]) w
          else w in
        (w, py_min sleep_time (delay elem))
  end.

(** [x.repeat] for the object with key [key]. *)
Definition repeats (w : EventWatcher) (key : nat) : bool :=
  match objects w !! key with
  | Some d => repeat d
  | None => false
  end.

(** One pass of the [while] of [_watch_loop], lock held: the [for] loop,
    then the [finally] clause. The result carries the [sleep_time] the
    pass ends with. A pass is one step of the watcher: registrations wait
    for the lock, and a dispatch that runs while the poll thread is inside
    a pass is taken to run before or after it. *)
Definition watch_pass (w : EventWatcher) : EventWatcher * seconds :=
  let '(w, sleep_time) :=
    foldl visit (w, 2%Q) (target_events_watch_data w) in
  (with_targets
     (filter (λ key, repeats w key = true) (target_events_watch_data w)) w,
   sleep_time).

(** The node reports [entries] for the filter of the object [key]. *)
Definition arrive (key : nat) (entries : list Decode.log) (w : EventWatcher)
    : EventWatcher :=
  match objects w !! key with
  | None => w
  | Some d =>
      let f := _event_filter d in
      with_objects
        (<[key := set_event_filter
                    (MkLogFilter (fromBlock f) (new_entries f ++ entries)) d]>
           (objects w)) w
  end.

(** The cooldown state of an object: its flag and its timestamp. *)
Definition cooldown_state (w : EventWatcher) (key : nat)
    : option (bool * seconds) :=
  (λ d, (_cooldown_time_over d, last_trigger_time d)) <$> objects w !! key.

(** A watcher at time 0 on a clock that advances a tenth of a second per
    reading, with one subscription registered with [repeat=False] and the
    default delay. *)
Definition tenths (n : nat) : seconds := (Z.of_nat n # 10).
Definition once_watcher : EventWatcher :=
  (add_event_callback "Transfer" (Callable "on_transfer") 2%Q false None
     (EventWatcher_init tenths 100)).2.

(** On the same clock, a repeating subscription registered with a delay
    of a hundredth of a second, for which the node then reports one
    entry. *)
Definition reported_entry : Decode.log :=
  Decode.transfer_log "0xA1" 0.
Definition busy_watcher : EventWatcher :=
  arrive 0 [reported_entry]
    (add_event_callback "Transfer" (Callable "on_transfer") (1 # 100) true None
       (EventWatcher_init tenths 100)).2.



End Watcher.

(** * Properties *)

(** ** Properties of the topic-map merge *)
Module TopicsFacts.
Import Topics.

Lemma not_next_indexed_has_indexed entry :
  not_next_indexed entry = negb (has_indexed entry).
Proof.
  unfold not_next_indexed, next_indexed, has_indexed.
  induction (ev_inputs entry) as [|i l IH]; [done|].
  rewrite filter_cons. simpl. destruct (in_indexed i) eqn:Hi.
  - by rewrite decide_True.
  - by rewrite decide_False.
Qed.

Lemma merge_step_lookup_eq m key value :
  merge_step m (key, value) !! key = Some (merge_entry (m !! key) value).
Proof.
  unfold merge_step, merge_entry.
  destruct (m !! key) as [old|] eqn:Hold.
  - destruct (decide (value = old)); [done|].
    rewrite not_next_indexed_has_indexed.
    destruct (has_indexed old); simpl; [done|].
    by rewrite lookup_insert_eq.
  - by rewrite lookup_insert_eq.
Qed.

Lemma merge_step_lookup_ne m key value k :
  key ≠ k → merge_step m (key, value) !! k = m !! k.
Proof.
  intros Hne. unfold merge_step.
  destruct (m !! key) as [old|].
  - destruct (decide (value = old)); [done|].
    destruct (not_next_indexed old); [|done].
    by rewrite lookup_insert_ne.
  - by rewrite lookup_insert_ne.
Qed.

Lemma merge_loop_untouched items m k :
  k ∉ items.*1 → foldl merge_step m items !! k = m !! k.
Proof.
  revert m. induction items as [|[key value] items IH]; intros m Hk; [done|].
  rewrite fmap_cons in Hk. cbn [foldl fst] in *.
  apply not_elem_of_cons in Hk as [Hne Hk].
  rewrite IH by done. by apply merge_step_lookup_ne.
Qed.

Lemma merge_loop_visited items m k v :
  NoDup items.*1 → (k, v) ∈ items →
  foldl merge_step m items !! k = Some (merge_entry (m !! k) v).
Proof.
  revert m. induction items as [|[key value] items IH]; intros m Hnd Hin.
  { by apply elem_of_nil in Hin. }
  rewrite fmap_cons in Hnd. cbn [foldl fst] in *.
  apply NoDup_cons in Hnd as [Hfresh Hnd].
  apply elem_of_cons in Hin as [Heq|Hin].
  - injection Heq as <- <-.
    rewrite merge_loop_untouched by done. apply merge_step_lookup_eq.
  - assert (key ≠ k) as Hne.
    { intros ->. apply Hfresh. apply list_elem_of_fmap. by exists (k, v). }
    rewrite IH by done. by rewrite merge_step_lookup_ne.
Qed.

(** The loop never removes a key. *)
Lemma merge_loop_keeps_keys items m k :
  is_Some (m !! k) → is_Some (foldl merge_step m items !! k).
Proof.
  revert m. induction items as [|[key value] items IH]; intros m Hk; [done|].
  cbn [foldl]. apply IH. destruct (decide (key = k)) as [->|Hne].
  - rewrite merge_step_lookup_eq. by eexists.
  - by rewrite merge_step_lookup_ne.
Qed.

(** [_topics.update(updated_topics)] leaves exactly [updated_topics]. *)
Lemma update_is_updated items m :
  foldl merge_step m items ∪ m = foldl merge_step m items.
Proof.
  apply map_eq. intros k. rewrite lookup_union.
  destruct (m !! k) as [o|] eqn:Hm.
  - destruct (merge_loop_keeps_keys items m k) as [x ->]; [by eexists|done].
  - by destruct (foldl merge_step m items !! k).
Qed.

Lemma merged_is_loop items st :
  merged items st = foldl merge_step (_topics st) items.
Proof.
  unfold merged, _get_topics. simpl. case_decide as Hne; simpl.
  - apply update_is_updated.
  - congruence.
Qed.

(** Pointwise description of the merged map. *)
Lemma merged_lookup_visited items st k v :
  NoDup items.*1 → (k, v) ∈ items →
  merged items st !! k = Some (merge_entry (_topics st !! k) v).
Proof. rewrite merged_is_loop. apply merge_loop_visited. Qed.

(** C1. For every merge of an incoming topic map (a dict, so its keys are
    pairwise distinct) into the global topic map: a hash absent from the
    global map is added; an identical entry changes nothing; a differing
    entry replaces the existing one exactly when the existing one has no
    indexed input; otherwise the existing entry is kept, so that an entry
    with an indexed input is never replaced; hashes the incoming map does
    not mention are left as they were. *)
Theorem get_topics_merge (topic_map : list (string * topic_entry))
    (st : store) (key : string) (value : topic_entry) :
  NoDup topic_map.*1 →
  (key, value) ∈ topic_map →
  (_topics st !! key = None → merged topic_map st !! key = Some value) ∧
  (_topics st !! key = Some value →
     merged topic_map st !! key = Some value) ∧
  (∀ old, _topics st !! key = Some old → value ≠ old →
     (merged topic_map st !! key = Some value ↔ has_indexed old = false) ∧
     (merged topic_map st !! key = Some old ↔ has_indexed old = true)) ∧
  (∀ k old, _topics st !! k = Some old → has_indexed old = true →
     merged topic_map st !! k = Some old) ∧
  (∀ k, k ∉ topic_map.*1 → merged topic_map st !! k = _topics st !! k).
Proof.
  intros Hnd Hin.
  pose proof (merged_lookup_visited _ st _ _ Hnd Hin) as Hv.
  split_and!.
  - intros Hold. by rewrite Hv, Hold.
  - intros Hold. rewrite Hv, Hold. simpl. by rewrite decide_True.
  - intros old Hold Hne. rewrite Hv, Hold. simpl.
    rewrite decide_False by done.
    destruct (has_indexed old); naive_solver.
  - intros k old Hold Hidx.
    destruct (decide (k ∈ topic_map.*1)) as [Hk|Hk].
    + apply list_elem_of_fmap in Hk as [[k' v'] [Heq Hk]].
      simpl in Heq. subst k.
      rewrite (merged_lookup_visited _ st _ _ Hnd Hk), Hold. simpl.
      destruct (decide (v' = old)); [done|]. by rewrite Hidx.
    + rewrite merged_is_loop, merge_loop_untouched by done. done.
  - intros k Hk. rewrite merged_is_loop. by apply merge_loop_untouched.
Qed.

Lemma get_topics_merge_witness :
  merged incoming_indexed plain_store !! "0xddf252ad" = Some transfer_indexed.
Proof.
  destruct (get_topics_merge incoming_indexed plain_store
              "0xddf252ad" transfer_indexed) as (_ & _ & Hrepl & _).
  - apply (bool_decide_unpack _). by vm_compute.
  - apply list_elem_of_here.
  - apply (Hrepl transfer_plain); [reflexivity|discriminate|reflexivity].
Defined.

(** Merge monotonicity on the two example stores: the indexed definition
    wins over the plain one, and the plain one does not displace it. *)
Example merge_monotone_example :
  merged incoming_indexed plain_store !! "0xddf252ad" = Some transfer_indexed ∧
  merged incoming_plain indexed_store !! "0xddf252ad" = Some transfer_indexed ∧
  merged incoming_indexed plain_store !! "0x8c5be1e5" = Some approval.
Proof. by vm_compute. Qed.

Lemma merge_loop_identical items m :
  Forall (λ item, m !! item.1 = Some item.2) items →
  foldl merge_step m items = m.
Proof.
  induction 1 as [|[key value] items Hhd _ IH]; [done|].
  cbn [foldl]. simpl in Hhd.
  assert (merge_step m (key, value) = m) as ->; [|done].
  unfold merge_step. rewrite Hhd. by rewrite decide_True.
Qed.

(** C9. Merging a topic map into a global map that already holds each of
    its entries identically leaves the global map as it was and writes
    nothing to the cache file: the whole store is unchanged. *)
Theorem get_topics_idempotent (topic_map : list (string * topic_entry))
    (st : store) :
  Forall (λ item, _topics st !! item.1 = Some item.2) topic_map →
  (_get_topics topic_map st).2 = st ∧
  merged topic_map st = _topics st ∧
  topics_json (_get_topics topic_map st).2 = topics_json st.
Proof.
  intros Hall.
  assert ((_get_topics topic_map st).2 = st) as Hst.
  { unfold _get_topics. simpl.
    rewrite (merge_loop_identical _ _ Hall). by rewrite decide_False by auto. }
  unfold merged. by rewrite Hst.
Qed.

(** Merging a map into itself: the store whose global map is the map built
    from the incoming items. *)
Lemma get_topics_idempotent_witness :
  (_get_topics incoming_indexed
     (Store (list_to_map incoming_indexed) [])).2
  = Store (list_to_map incoming_indexed) [].
Proof.
  refine (proj1 (get_topics_idempotent incoming_indexed
                   (Store (list_to_map incoming_indexed) []) _)).
  repeat constructor.
Defined.

(** The same for every map merged into itself, whatever was written
    before. *)
Lemma get_topics_self_merge (m : gmap string topic_entry) writes :
  (_get_topics (map_to_list m) (Store m writes)).2 = Store m writes.
Proof.
  unfold _get_topics. simpl.
  rewrite merge_loop_identical; [by rewrite decide_False by auto|].
  apply Forall_forall. intros [k v] Hin. simpl.
  by apply elem_of_map_to_list.
Qed.

(** *** The returned dict, the cache file, and sequences of calls *)

Lemma names_to_topics_snoc items key value :
  names_to_topics (items ++ [(key, value)])
  = <[ev_name value := key]> (names_to_topics items).
Proof. unfold names_to_topics. by rewrite foldl_app. Qed.

Lemma names_to_topics_lookup items n :
  names_to_topics items !! n
  = fst <$> last (filter (λ item, ev_name item.2 = n) items).
Proof.
  induction items as [|[key value] items IH] using rev_ind; [done|].
  rewrite names_to_topics_snoc, filter_app, filter_cons, filter_nil. simpl.
  case_decide as Hn.
  - subst n. rewrite lookup_insert_eq. by rewrite last_snoc.
  - rewrite lookup_insert_ne by done. by rewrite app_nil_r.
Qed.

(** X1. The dict [_get_topics] returns maps each event name of the incoming
    topic map to the topic of the last entry bearing that name, whatever
    the global map holds: a name borne by one entry only is mapped to that
    entry's topic, and a name is absent exactly when no entry bears it. *)
Theorem get_topics_returns_names (topic_map : list (string * topic_entry))
    (st : store) (n : string) :
  (_get_topics topic_map st).1 !! n
  = fst <$> last (filter (λ item, ev_name item.2 = n) topic_map) ∧
  (∀ key value, (key, value) ∈ topic_map → ev_name value = n →
     (∀ key' value', (key', value') ∈ topic_map → ev_name value' = n →
        key' = key) →
     (_get_topics topic_map st).1 !! n = Some key) ∧
  ((_get_topics topic_map st).1 !! n = None ↔
     ∀ key value, (key, value) ∈ topic_map → ev_name value ≠ n).
Proof.
  change ((_get_topics topic_map st).1) with (names_to_topics topic_map).
  rewrite names_to_topics_lookup.
  split_and!; [done|..].
  - intros key value Hin Hname Huniq.
    destruct (last (filter _ topic_map)) as [[k v]|] eqn:Hlast.
    + apply last_Some in Hlast as [l' Hl'].
      assert ((k, v) ∈ filter (λ item, ev_name item.2 = n) topic_map) as Hkv.
      { rewrite Hl'. apply elem_of_app. right. apply list_elem_of_here. }
      apply list_elem_of_filter in Hkv as [Hkn Hkv]. simpl in *.
      f_equal. by eapply Huniq.
    + apply last_None in Hlast.
      assert ((key, value) ∈ filter (λ item, ev_name item.2 = n) topic_map)
        as Hkv by (by apply list_elem_of_filter).
      rewrite Hlast in Hkv. by apply elem_of_nil in Hkv.
  - rewrite fmap_None, last_None. split.
    + intros Hnil key value Hin Hname.
      assert ((key, value) ∈ filter (λ item, ev_name item.2 = n) topic_map)
        as Hkv by (by apply list_elem_of_filter).
      rewrite Hnil in Hkv. by apply elem_of_nil in Hkv.
    + intros Hnone. induction topic_map as [|[k v] items IH]; [done|].
      rewrite filter_cons_False.
      * apply IH. intros key value Hin. apply (Hnone key). by right.
      * simpl. apply (Hnone k v). by left.
Qed.

(** The loop only ever stores, at a key, the value that was there or one
    the incoming map gives for that key. *)
Lemma merge_loop_provenance items m k v :
  foldl merge_step m items !! k = Some v →
  m !! k = Some v ∨ (k, v) ∈ items.
Proof.
  revert m. induction items as [|[key value] items IH]; intros m; [by left|].
  cbn [foldl]. intros [Hm|Hin]%IH; [|right; by right].
  destruct (decide (key = k)) as [->|Hne].
  - rewrite merge_step_lookup_eq in Hm. injection Hm as <-.
    unfold merge_entry. destruct (m !! k) as [o|] eqn:Ho.
    + destruct (decide (value = o)); [by left|].
      destruct (has_indexed o); [by left|right; by left].
    + right. by left.
  - rewrite merge_step_lookup_ne in Hm by done. by left.
Qed.

Lemma merge_loop_adds_keys items m k :
  k ∈ items.*1 → is_Some (foldl merge_step m items !! k).
Proof.
  revert m. induction items as [|[key value] items IH]; intros m Hk.
  { by apply elem_of_nil in Hk. }
  rewrite fmap_cons in Hk. cbn [foldl fst] in *.
  apply elem_of_cons in Hk as [->|Hk]; [|by apply IH].
  apply merge_loop_keeps_keys. rewrite merge_step_lookup_eq. by eexists.
Qed.

(** X2. After [_get_topics], the global map has a topic exactly when it
    had it before or the incoming map has it, and every entry it holds is
    the one that was there or the incoming one for that topic: no topic is
    dropped and no entry is made up. *)
Theorem get_topics_keys_and_values (topic_map : list (string * topic_entry))
    (st : store) (k : string) :
  (is_Some (merged topic_map st !! k)
   ↔ is_Some (_topics st !! k) ∨ k ∈ topic_map.*1) ∧
  (∀ v, merged topic_map st !! k = Some v →
     _topics st !! k = Some v ∨ (k, v) ∈ topic_map).
Proof.
  rewrite merged_is_loop. split.
  - split.
    + intros [v Hv]. apply merge_loop_provenance in Hv as [Hold|Hin].
      * left. by eexists.
      * right. apply list_elem_of_fmap. by exists (k, v).
    + intros [Hold|Hin].
      * by apply merge_loop_keeps_keys.
      * by apply merge_loop_adds_keys.
  - intros v. apply merge_loop_provenance.
Qed.

(** After a call, either nothing was written and the map is the one from
    before, or the last content written is the map. *)
Lemma get_topics_written topic_map st :
  let st' := (_get_topics topic_map st).2 in
  (st' = st) ∨
  (topics_json st' = topics_json st ++ [_topics st'] ∧ _topics st' ≠ _topics st).
Proof.
  unfold _get_topics. cbn [snd]. case_decide as Hne; [right|by left].
  cbn [topics_json Topics._topics]. by rewrite update_is_updated.
Qed.

Lemma get_topics_calls_snoc abis topic_map st :
  get_topics_calls (abis ++ [topic_map]) st
  = (_get_topics topic_map (get_topics_calls abis st)).2.
Proof. unfold get_topics_calls. by rewrite foldl_app. Qed.

Lemma get_topics_calls_written abis st :
  (get_topics_calls abis st = st) ∨
  (∃ earlier, topics_json (get_topics_calls abis st)
              = topics_json st ++ earlier ++ [_topics (get_topics_calls abis st)]).
Proof.
  induction abis as [|topic_map abis IH] using rev_ind; [by left|].
  rewrite get_topics_calls_snoc.
  destruct (get_topics_written topic_map (get_topics_calls abis st))
    as [->|[Hjson _]]; [done|].
  right. cbn zeta in Hjson. rewrite Hjson.
  destruct IH as [->|[earlier ->]].
  - by exists [].
  - exists (earlier ++ [_topics (get_topics_calls abis st)]).
    by rewrite <- !app_assoc.
Qed.

(** X3. The cache file follows the global map: after any sequence of
    [_get_topics] calls made since the module was imported, importing the
    module again (reading [topics.json] as the calls left it) gives the
    same global map; the last content written, if any, is the map itself. *)
Theorem topics_survive_restart (file : cache_file)
    (abis : list (list (string * topic_entry))) :
  let st := get_topics_calls abis (load_topics file) in
  _topics (load_topics (file_after file st)) = _topics st ∧
  (∀ content, last (topics_json st) = Some content → content = _topics st).
Proof.
  cbn zeta. unfold file_after.
  destruct (get_topics_calls_written abis (load_topics file))
    as [->|[earlier Hjson]].
  - by destruct file.
  - rewrite Hjson, !app_assoc, last_snoc. split; [done|]. by intros ? [= <-].
Qed.

Lemma merge_loop_keeps_indexed items m k old :
  m !! k = Some old → has_indexed old = true →
  foldl merge_step m items !! k = Some old.
Proof.
  revert m. induction items as [|[key value] items IH]; intros m Hold Hidx.
  { done. }
  cbn [foldl]. apply IH; [|done].
  destruct (decide (key = k)) as [->|Hne].
  - rewrite merge_step_lookup_eq, Hold. simpl.
    destruct (decide (value = old)); [done|]. by rewrite Hidx.
  - by rewrite merge_step_lookup_ne.
Qed.

(** X4. Over any sequence of [_get_topics] calls, a topic of the global
    map is never removed, and an entry with an indexed input is never
    replaced. *)
Theorem indexed_entries_are_final (abis : list (list (string * topic_entry)))
    (st : store) (k : string) (old : topic_entry) :
  _topics st !! k = Some old →
  is_Some (_topics (get_topics_calls abis st) !! k) ∧
  (has_indexed old = true →
   _topics (get_topics_calls abis st) !! k = Some old).
Proof.
  intros Hold. induction abis as [|topic_map abis [IHkey IHidx]] using rev_ind.
  { split; [by eexists|done]. }
  rewrite get_topics_calls_snoc.
  change (_topics (_get_topics topic_map ?s).2) with (merged topic_map s).
  split.
  - rewrite merged_is_loop. by apply merge_loop_keeps_keys.
  - intros Hidx. rewrite merged_is_loop. apply merge_loop_keeps_indexed; auto.
Qed.

(** The indexed [Transfer] that the second ABI brings stays when the plain
    one comes again. *)
Lemma indexed_entries_are_final_witness :
  _topics (get_topics_calls [incoming_plain; incoming_indexed; incoming_plain]
             plain_store) !! "0xddf252ad" = Some transfer_indexed.
Proof.
  apply (indexed_entries_are_final [incoming_plain]
           (get_topics_calls [incoming_plain; incoming_indexed] plain_store)
           "0xddf252ad" transfer_indexed); by vm_compute.
Defined.

End TopicsFacts.

(** ** Properties of [EventDict] and [_EventItem] *)
Module EventsFacts.
Import Py Events.

Section grouping.
Implicit Types (ordered l : list _EventItem) (d : list (string * _EventItem)).
Implicit Types (ks : list string).

Lemma group_step_keys ordered d ev :
  (group_step ordered d ev).*1 =
    if dict_contains d (name ev) then d.*1 else d.*1 ++ [name ev].
Proof.
  unfold group_step. destruct (dict_contains d (name ev)); [done|].
  by rewrite fmap_app.
Qed.

(** The loop keeps the keys of [_dict] pairwise distinct. *)
Lemma group_loop_NoDup ordered l d :
  NoDup d.*1 → NoDup (foldl (group_step ordered) d l).*1.
Proof.
  revert d. induction l as [|ev l IH]; intros d Hnd; [done|].
  cbn [foldl]. apply IH. rewrite group_step_keys. unfold dict_contains.
  case_bool_decide as Hin; [done|].
  apply NoDup_app. split_and!; [done| |apply NoDup_singleton].
  intros x Hx ->%list_elem_of_singleton. done.
Qed.

(** Every name met by the loop is a key afterwards. *)
Lemma group_loop_keys ordered l d n :
  n ∈ (foldl (group_step ordered) d l).*1 ↔ n ∈ d.*1 ∨ n ∈ name <$> l.
Proof.
  revert d. induction l as [|ev l IH]; intros d.
  { cbn [foldl]. rewrite fmap_nil, elem_of_nil. tauto. }
  cbn [foldl]. rewrite IH, group_step_keys, fmap_cons, elem_of_cons.
  unfold dict_contains. case_bool_decide as Hin.
  - split; [tauto|]. intros [?|[->|?]]; tauto.
  - rewrite elem_of_app, list_elem_of_singleton. tauto.
Qed.

(** Two exclusive filters split the count of their union. *)
Lemma length_filter_exclusive (P Q : _EventItem → Prop)
    `{∀ x, Decision (P x)} `{∀ x, Decision (Q x)} l :
  (∀ x, P x → Q x → False) →
  length (filter P l) + length (filter Q l)
  = length (filter (λ x, P x ∨ Q x) l).
Proof.
  intros Hexcl. induction l as [|x l IH]; [done|].
  rewrite !filter_cons.
  destruct (decide (P x)) as [HP|HP], (decide (Q x)) as [HQ|HQ].
  - by destruct (Hexcl x).
  - rewrite decide_True by auto. simpl. lia.
  - rewrite decide_True by auto. simpl. lia.
  - rewrite decide_False by tauto. done.
Qed.

(** Over pairwise distinct names, the counts add up to the number of items
    bearing one of the names. *)
Lemma sum_counts ks l :
  NoDup ks →
  sum_list ((λ n, length (filter (λ i, name i = n) l)) <$> ks)
  = length (filter (λ i, name i ∈ ks) l).
Proof.
  induction 1 as [|k ks Hfresh Hnd IH].
  { simpl. induction l as [|x l IHl]; [done|].
    rewrite filter_cons_False; [done|]. apply not_elem_of_nil. }
  rewrite fmap_cons.
  change (sum_list (?x :: ?r)) with (x + sum_list r). rewrite IH.
  rewrite (length_filter_exclusive (λ i, name i = k) (λ i, name i ∈ ks)).
  - f_equal. apply list_filter_iff. intros i. rewrite elem_of_cons. tauto.
  - intros i <- Hin. done.
Qed.

Lemma filter_all_names l ks :
  (∀ i, i ∈ l → name i ∈ ks) → filter (λ i, name i ∈ ks) l = l.
Proof.
  induction l as [|x l IH]; intros Hall; [done|].
  rewrite filter_cons_True by (apply Hall; left).
  f_equal. apply IH. intros i Hi. apply Hall. by right.
Qed.

End grouping.

(** C2. For every EventDict built from a decoded event list, the counts of
    the names in [keys()] add up to the length of the EventDict. *)
Theorem count_keys_partition (events : list event) :
  sum_list (count (EventDict_init events) <$> ed_keys (EventDict_init events))
  = len (EventDict_init events).
Proof.
  unfold count, ed_keys, len, EventDict_init. cbn [ed_ordered ed_dict].
  set (ordered := imap single events).
  erewrite (list_fmap_ext (λ n, length (name <$> filter _ ordered)));
    [|intros i n _; apply length_fmap].
  rewrite sum_counts by (by apply group_loop_NoDup, NoDup_nil).
  f_equal. apply filter_all_names. intros i Hi.
  apply group_loop_keys. right. by apply list_elem_of_fmap_2.
Qed.

(** *** Field lookup *)

Lemma od_contains_get od key :
  od_contains od key = match od_get od key with Some _ => true | None => false end.
Proof.
  unfold od_contains. destruct (od_get od key) as [v|].
  - by rewrite bool_decide_eq_true_2.
  - rewrite bool_decide_eq_false_2; [done|]. by intros [? ?].
Qed.

(** [key in group] is decided by the first firing. *)
Lemma contains_first_firing :
  ∀ it key od, first_firing it = Some od →
    contains it key = Return (od_contains od key).
Proof.
  fix IH 1. intros [n a ordered p] key od Hff.
  destruct ordered as [|[od'|first] rest]; simpl in Hff |- *.
  - discriminate.
  - by injection Hff as ->.
  - by apply IH.
Qed.

(** [keys()] strips the suffix once per level that is read through. *)
Lemma keys_first_firing :
  ∀ it od, first_firing it = Some od →
    keys it = Return (Nat.iter (S (nesting it)) (fmap replace_indexed) od.*1).
Proof.
  fix IH 1. intros [n a ordered p] od Hff.
  destruct ordered as [|[od'|first] rest]; simpl in Hff |- *.
  - discriminate.
  - by injection Hff as ->.
  - by rewrite (IH first od Hff).
Qed.

Lemma getitem_str_first_firing :
  ∀ it key od, first_firing it = Some od →
    getitem_str it key = field_lookup (name it) (S (nesting it)) od key.
Proof.
  fix IH 1. intros [n a ordered p] key od Hff.
  destruct ordered as [|[od'|first] rest].
  - discriminate.
  - simpl in Hff. injection Hff as ->.
    cbn [getitem_str]. unfold field_lookup.
    rewrite !od_contains_get. unfold od_getitem.
    destruct (od_get od key) as [v|]; [done|].
    destruct (od_get od (key +:+ " (indexed)")) as [v|]; done.
  - simpl in Hff. cbn [getitem_str].
    rewrite !(contains_first_firing first _ od Hff), !od_contains_get.
    unfold field_lookup at 1.
    destruct (od_get od key) as [v|] eqn:Hk.
    { rewrite (IH first key od Hff). unfold field_lookup. by rewrite Hk. }
    destruct (od_get od (key +:+ " (indexed)")) as [v|] eqn:Hki.
    { rewrite (IH first _ od Hff). unfold field_lookup. by rewrite Hki. }
    unfold raise_unknown_key.
    by rewrite (keys_first_firing (EventItem n a (inr first :: rest) p) od Hff).
Qed.

(** C4. For every non-empty event group (one whose first firing [od]
    exists) and string key: [group[key]] is the value of field [key] of the
    first firing; failing that, the value of the field named [key] followed
    by [" (indexed)"]; failing both, an [EventLookupError] whose message
    lists, for the group's event name, the field names that [keys()]
    returns. *)
Theorem group_getitem_field (group : _EventItem) (key : string)
    (od : ordered_dict) :
  first_firing group = Some od →
  getitem group (KStr key) =
    match od_get od key, od_get od (key +:+ " (indexed)") with
    | Some v, _ => Return (Field v)
    | None, Some v => Return (Field v)
    | None, None =>
        Raise (EventLookupError
                 ("Unknown key '" +:+ key +:+ "' - the '" +:+ name group
                    +:+ "' event includes these keys: "
                    +:+ String.concat ", " (listed_keys (S (nesting group)) od)))
    end
  ∧ keys group = Return (listed_keys (S (nesting group)) od).
Proof.
  intros Hff. split; [|by apply keys_first_firing].
  cbn [getitem]. rewrite (getitem_str_first_firing group key od Hff).
  unfold field_lookup.
  destruct (od_get od key); [done|].
  by destruct (od_get od (key +:+ " (indexed)")).
Qed.

Lemma group_getitem_field_witness :
  getitem sample_group (KStr "value") = Return (Field (VInt 100)) ∧
  getitem sample_group (KStr "memo") = Return (Field (VStr "0xfeed")) ∧
  getitem sample_group (KStr "amount") =
    Raise (EventLookupError
             "Unknown key 'amount' - the 'Transfer' event includes these keys: from, memo, value").
Proof.
  split_and!.
  - exact (proj1 (group_getitem_field sample_group "value" (sample_od 100)
                    eq_refl)).
  - exact (proj1 (group_getitem_field sample_group "memo" (sample_od 100)
                    eq_refl)).
  - exact (proj1 (group_getitem_field sample_group "amount" (sample_od 100)
                    eq_refl)).
Defined.

(** Every item and every group of an [EventDict] is non-empty in that
    sense: an item holds the OrderedDict of its event, and a group starts
    with such an item and bears the name it is filed under. *)
Lemma ordered_first_firing events it :
  it ∈ ed_ordered (EventDict_init events) →
  ∃ od, first_firing it = Some od ∧ nesting it = 0.
Proof.
  cbn [EventDict_init ed_ordered]. intros Hin.
  apply elem_of_lookup_imap in Hin as (i & ev & -> & _).
  by eexists.
Qed.

Lemma group_loop_first_firing ordered l d :
  (∀ it, it ∈ ordered → ∃ od, first_firing it = Some od ∧ nesting it = 0) →
  (∀ it, it ∈ l → it ∈ ordered) →
  (∀ n g, (n, g) ∈ d →
     name g = n ∧ ∃ od, first_firing g = Some od ∧ nesting g = 1) →
  ∀ n g, (n, g) ∈ foldl (group_step ordered) d l →
    name g = n ∧ ∃ od, first_firing g = Some od ∧ nesting g = 1.
Proof.
  intros Hordered. revert d. induction l as [|ev l IH]; intros d Hl Hd; [done|].
  cbn [foldl]. apply IH; [intros it Hit; apply Hl; by right|].
  unfold group_step. destruct (dict_contains d (name ev)); [done|].
  intros n g [Hin|Hnew%list_elem_of_singleton]%elem_of_app; [by apply Hd|].
  injection Hnew as -> ->. split; [done|].
  assert (ev ∈ filter (λ i, name i = name ev) ordered) as Hev.
  { apply list_elem_of_filter. split; [done|]. apply Hl. by left. }
  destruct (filter _ ordered) as [|x events] eqn:Hfilter.
  { by apply elem_of_nil in Hev. }
  assert (x ∈ ordered) as Hx.
  { eapply (proj1 (list_elem_of_filter _ ordered x)). rewrite Hfilter. by left. }
  destruct (Hordered x Hx) as (od & Hod & Hnest).
  exists od. simpl. by rewrite Hod, Hnest.
Qed.

Lemma groups_first_firing events n g :
  (n, g) ∈ ed_dict (EventDict_init events) →
  name g = n ∧ ∃ od, first_firing g = Some od ∧ nesting g = 1.
Proof.
  cbn [EventDict_init ed_dict].
  apply group_loop_first_firing; [|done|].
  - apply (ordered_first_firing events).
  - intros n' g' Hin. by apply elem_of_nil in Hin.
Qed.

(** The sample group is the one [EventDict] builds for ["Transfer"]. *)
Example sample_group_built :
  ed_getitem (EventDict_init sample_events) (KStr "Transfer")
  = Return sample_group.
Proof. by vm_compute. Qed.

Example sample_counts_hold :
  ed_keys (EventDict_init sample_events) = ["Transfer"; "Approval"] ∧
  count (EventDict_init sample_events) "Transfer" = 2 ∧
  count (EventDict_init sample_events) "Approval" = 1 ∧
  len (EventDict_init sample_events) = 3.
Proof. by vm_compute. Qed.

(** *** Names, groups and positions *)

Lemma elem_of_first_occurrences l n : n ∈ first_occurrences l ↔ n ∈ l.
Proof.
  induction l as [|x l IH]; [done|]. cbn [first_occurrences].
  rewrite !elem_of_cons, list_elem_of_filter, IH.
  destruct (decide (n = x)) as [->|]; tauto.
Qed.

Lemma first_occurrences_snoc l x :
  first_occurrences (l ++ [x])
  = if decide (x ∈ l) then first_occurrences l else first_occurrences l ++ [x].
Proof.
  induction l as [|n l IH]; [done|].
  cbn [app first_occurrences]. rewrite IH.
  destruct (decide (x = n)) as [->|Hne].
  - rewrite (decide_True (P := n ∈ n :: l)) by left.
    case_decide; [done|].
    rewrite filter_app, filter_cons_False, app_nil_r by (by intros ?). done.
  - case_decide as Hin.
    + rewrite decide_True by (by right). done.
    + rewrite decide_False by (by intros [?|?]%elem_of_cons).
      rewrite filter_app, filter_cons_True by done. done.
Qed.

Lemma first_occurrences_NoDup l : NoDup (first_occurrences l).
Proof.
  induction l as [|n l IH]; [constructor|]. cbn [first_occurrences].
  constructor; [|by apply NoDup_filter].
  rewrite list_elem_of_filter. by intros [? _].
Qed.

(** *** The grouping loop, entry by entry *)

Lemma names_of_items events : name <$> imap single events = e_name <$> events.
Proof. rewrite fmap_imap. apply imap_const. Qed.

Lemma group_loop_first_occurrences ordered l :
  (foldl (group_step ordered) [] l).*1 = first_occurrences (name <$> l).
Proof.
  induction l as [|ev l IH] using rev_ind; [done|].
  rewrite foldl_app, fmap_app. cbn [foldl fmap list_fmap].
  rewrite first_occurrences_snoc, group_step_keys, IH. unfold dict_contains. rewrite IH.
  case_bool_decide as Hin.
  - rewrite decide_True; [done|]. by apply elem_of_first_occurrences.
  - rewrite decide_False; [done|]. by rewrite <- elem_of_first_occurrences.
Qed.

Lemma group_loop_entries ordered l d n g :
  (n, g) ∈ foldl (group_step ordered) d l →
  (n, g) ∈ d ∨ (n ∈ name <$> l ∧ g = group_of ordered n).
Proof.
  revert d. induction l as [|ev l IH]; intros d; [by left|].
  cbn [foldl]. intros [Hin|[Hn ->]]%IH.
  - unfold group_step in Hin. destruct (dict_contains d (name ev)); [by left|].
    apply elem_of_app in Hin as [?|Hnew%list_elem_of_singleton]; [by left|].
    injection Hnew as -> ->. right. split; [|done].
    rewrite fmap_cons. by left.
  - right. split; [|done]. rewrite fmap_cons. by right.
Qed.

Lemma ed_getitem_str_Return events n g :
  ed_getitem (EventDict_init events) (KStr n) = Return g ↔
  n ∈ e_name <$> events ∧ g = group_of (imap single events) n.
Proof.
  cbn [ed_getitem]. set (ed := EventDict_init events).
  destruct (list_find _ (ed_dict ed)) as [[i [n' g']]|] eqn:Hfind.
  - apply list_find_Some in Hfind as (Hi & Hn & _). simpl in Hn. subst n'.
    apply list_elem_of_lookup_2 in Hi.
    apply group_loop_entries in Hi as [Hnil|[Hn Hg]].
    { by apply elem_of_nil in Hnil. }
    rewrite names_of_items in Hn. split.
    + by intros [= <-].
    + intros [_ ->]. by rewrite Hg.
  - split; [done|]. intros [Hn _]. exfalso.
    apply list_find_None in Hfind.
    assert (n ∈ (ed_dict ed).*1) as Hkey.
    { apply group_loop_keys. right. by rewrite names_of_items. }
    apply list_elem_of_fmap in Hkey as [[n' g'] [-> Hin]].
    eapply Forall_forall in Hfind; [|done]. by apply Hfind.
Qed.

Lemma count_names events n :
  count (EventDict_init events) n
  = length (filter (λ i, name i = n) (imap single events)).
Proof. unfold count. by rewrite length_fmap. Qed.


Lemma elem_of_items events it :
  it ∈ imap single events ↔ ∃ p e, events !! p = Some e ∧ it = single p e.
Proof.
  split.
  - intros (p & e & -> & He)%elem_of_lookup_imap_1. by exists p, e.
  - intros (p & e & He & ->). by apply elem_of_lookup_imap_2.
Qed.

Lemma list_getitem_nat {A} (l : list A) (i : nat) :
  list_getitem l (Z.of_nat i) = l !! i.
Proof.
  unfold list_getitem. rewrite bool_decide_eq_true_2 by lia.
  by rewrite Nat2Z.id.
Qed.

Lemma StronglySorted_filter {A} (R : relation A) (P : A → Prop)
    `{∀ x, Decision (P x)} l :
  StronglySorted R l → StronglySorted R (filter P l).
Proof.
  induction 1 as [|x l Hl IH Hx]; [constructor|].
  rewrite filter_cons. case_decide; [|done].
  constructor; [done|]. apply Forall_forall.
  intros y [_ Hy]%list_elem_of_filter. by eapply Forall_forall in Hx.
Qed.

Lemma items_sorted events k :
  StronglySorted (λ a b, pos0 a < pos0 b)
    (imap (λ i, single (k + i)) events) ∧
  Forall (λ a, k ≤ pos0 a) (imap (λ i, single (k + i)) events).
Proof.
  revert k. induction events as [|e events IH]; intros k.
  { split; constructor. }
  cbn [imap]. 
  rewrite (imap_ext _ (λ i, single (S k + i)))
    by (intros i x _; unfold compose; by replace (k + S i) with (S k + i) by lia).
  destruct (IH (S k)) as [Hsorted Hall]. split.
  - constructor; [done|].
    eapply Forall_impl; [exact Hall|]. intros a Ha.
    change (pos0 (single (k + 0) e)) with (k + 0). cbn beta in *. lia.
  - constructor; [change (pos0 (single (k + 0) e)) with (k + 0); lia|].
    eapply Forall_impl; [exact Hall|]. intros a Ha. cbn beta in *. lia.
Qed.

Lemma count_positive events n :
  0 < count (EventDict_init events) n ↔ n ∈ e_name <$> events.
Proof.
  rewrite count_names, <- names_of_items. split.
  - destruct (filter _ (imap single events)) as [|it rest] eqn:Hfilter.
    { simpl. lia. }
    intros _.
    assert (it ∈ filter (λ i, name i = n) (imap single events)) as Hit.
    { rewrite Hfilter. left. }
    apply list_elem_of_filter in Hit as [<- Hit]. by apply list_elem_of_fmap_2.
  - intros (it & -> & Hit)%list_elem_of_fmap.
    assert (it ∈ filter (λ i, name i = name it) (imap single events)) as Hin.
    { by apply list_elem_of_filter. }
    destruct (filter _ (imap single events)); [by apply elem_of_nil in Hin|].
    simpl. lia.
Qed.

Lemma ed_keys_first_occurrences events :
  ed_keys (EventDict_init events) = first_occurrences (e_name <$> events).
Proof.
  unfold ed_keys, EventDict_init. cbn [ed_dict].
  by rewrite group_loop_first_occurrences, names_of_items.
Qed.

(** X5. [keys()] of an EventDict lists every event name once, in the order
    in which the names first fired. *)
Theorem keys_in_order_of_first_firing (events : list event) :
  ed_keys (EventDict_init events) = first_occurrences (e_name <$> events) ∧
  NoDup (ed_keys (EventDict_init events)) ∧
  (∀ n, n ∈ ed_keys (EventDict_init events) ↔ n ∈ e_name <$> events).
Proof.
  rewrite ed_keys_first_occurrences. split_and!; [done|apply first_occurrences_NoDup|].
  intros n. apply elem_of_first_occurrences.
Qed.

(** X6. For an EventDict built from a decoded event list, [name in ed]
    holds exactly when an event of that name is in the list, when the name
    is among [keys()], when [count(name)] is positive, and when
    [ed[name]] returns; otherwise [ed[name]] raises the [EventLookupError]
    that says the event did not fire. *)
Theorem fired_iff (events : list event) (n : string) :
  (ed_contains (EventDict_init events) n = true ↔ n ∈ e_name <$> events) ∧
  (ed_contains (EventDict_init events) n = true
   ↔ n ∈ ed_keys (EventDict_init events)) ∧
  (ed_contains (EventDict_init events) n = true
   ↔ 0 < count (EventDict_init events) n) ∧
  (ed_contains (EventDict_init events) n = true
   ↔ ∃ g, ed_getitem (EventDict_init events) (KStr n) = Return g) ∧
  (ed_contains (EventDict_init events) n = false
   ↔ ed_getitem (EventDict_init events) (KStr n)
     = Raise (EventLookupError ("Event '" +:+ n +:+ "' did not fire."))).
Proof.
  assert (ed_contains (EventDict_init events) n = true ↔ n ∈ e_name <$> events)
    as Hcontains.
  { unfold ed_contains, EventDict_init. cbn [ed_ordered].
    by rewrite bool_decide_eq_true, names_of_items. }
  assert (n ∈ e_name <$> events
          ↔ ∃ g,  ed_getitem (EventDict_init events) (KStr n) = Return g)
    as Hgetitem.
  { split.
    - intros Hn. exists (group_of (imap single events) n).
      by apply ed_getitem_str_Return.
    - intros [g [Hn _]%ed_getitem_str_Return]. done. }
  split_and!; [done|..].
  - rewrite Hcontains. unfold ed_keys, EventDict_init. cbn [ed_dict].
    by rewrite group_loop_first_occurrences, names_of_items,
      elem_of_first_occurrences.
  - by rewrite Hcontains, count_positive.
  - by rewrite Hcontains.
  - rewrite <- not_true_iff_false, Hcontains. cbn [ed_getitem].
    destruct (list_find _ _) as [[i [n' g']]|] eqn:Hfind.
    + split; [|done]. intros Hn. exfalso. apply Hn, Hgetitem.
      exists g'. cbn [ed_getitem]. by rewrite Hfind.
    + split; [done|]. intros _ Hn. apply Hgetitem in Hn as [g Hg].
      cbn [ed_getitem] in Hg. by rewrite Hfind in Hg.
Qed.

Lemma pos_of_members events n :
  StronglySorted lt
    (pos0 <$> filter (λ i, name i = n) (imap single events)).
Proof.
  apply (StronglySorted_fmap _ (λ a b, pos0 a < pos0 b)); [done|].
  apply StronglySorted_filter.
  apply (proj1 (items_sorted events 0)).
Qed.

Lemma members_positions events n p :
  p ∈ pos0 <$> filter (λ i, name i = n) (imap single events)
  ↔ ∃ e, events !! p = Some e ∧ e_name e = n.
Proof.
  rewrite list_elem_of_fmap. split.
  - intros (it & -> & [Hname Hit]%list_elem_of_filter).
    apply elem_of_items in Hit as (p & e & He & ->). by exists e.
  - intros (e & He & Hname). exists (single p e). split; [done|].
    apply list_elem_of_filter. split; [done|]. apply elem_of_items. eauto.
Qed.

(** X7. The group [ed[name]] bears the name and no address; its length
    is [ed.count(name)], which is positive; its [pos] has one position for
    each member, in increasing order, and holds exactly the positions of
    the events of that name; and the member [k] of the group is the item
    found at position [pos[k]] of the EventDict. *)
Theorem group_members (events : list event) (n : string) (g : _EventItem) :
  ed_getitem (EventDict_init events) (KStr n) = Return g →
  name g = n ∧ address g = None ∧
  item_len g = count (EventDict_init events) n ∧
  0 < item_len g ∧
  length (pos g) = item_len g ∧
  StronglySorted lt (pos g) ∧
  (∀ p, p ∈ pos g ↔ ∃ e, events !! p = Some e ∧ e_name e = n) ∧
  (∀ k p, pos g !! k = Some p →
     ∃ it, ed_getitem (EventDict_init events) (KInt (Z.of_nat p)) = Return it ∧
           getitem g (KInt (Z.of_nat k)) = Return (Member (inr it))).
Proof.
  intros [Hn ->]%ed_getitem_str_Return.
  unfold group_of, item_len. cbn [name address _ordered pos].
  rewrite !length_fmap.
  split_and!; try done.
  - by rewrite count_names.
  - rewrite <- count_names. by apply count_positive.
  - apply pos_of_members.
  - apply members_positions.
  - intros k p (it & -> & Hk)%list_lookup_fmap_Some.
    assert (it ∈ filter (λ i, name i = n) (imap single events)) as Hit.
    { by eapply list_elem_of_lookup_2. }
    apply list_elem_of_filter in Hit as [_ Hit].
    apply elem_of_items in Hit as (p & e & He & ->).
    exists (single p e). split.
    + cbn [ed_getitem EventDict_init ed_ordered pos0 single pos hd].
      by rewrite list_getitem_nat, list_lookup_imap, He.
    + cbn [getitem _ordered]. by rewrite list_getitem_nat, list_lookup_fmap, Hk.
Qed.

(** The second [Transfer] of the sample is the event at position 2. *)
Lemma group_members_witness :
  ∃ it, ed_getitem (EventDict_init sample_events) (KInt 2) = Return it ∧
        getitem sample_group (KInt 1) = Return (Member (inr it)).
Proof.
  destruct (group_members sample_events "Transfer" sample_group)
    as (_ & _ & _ & _ & _ & _ & _ & Hround).
  - by vm_compute.
  - apply (Hround 1 2). reflexivity.
Defined.

Lemma list_getitem_Some {A} (l : list A) (i : Z) :
  (- Z.of_nat (length l) ≤ i < Z.of_nat (length l))%Z →
  list_getitem l i = l !! Z.to_nat (i `mod` Z.of_nat (length l)).
Proof.
  intros Hi. unfold list_getitem. case_bool_decide as Hpos.
  - by rewrite Z.mod_small by lia.
  - rewrite bool_decide_eq_true_2 by lia. f_equal. f_equal.
    rewrite <- (Z.mod_small (Z.of_nat (length l) + i) (Z.of_nat (length l)))
      at 1 by lia.
    rewrite <- Zplus_mod_idemp_l, Z.mod_same by lia. done.
Qed.

Lemma list_getitem_None {A} (l : list A) (i : Z) :
  ¬ (- Z.of_nat (length l) ≤ i < Z.of_nat (length l))%Z →
  list_getitem l i = None.
Proof.
  intros Hi. unfold list_getitem. case_bool_decide as Hpos.
  - apply lookup_ge_None. lia.
  - by rewrite bool_decide_eq_false_2 by lia.
Qed.

(** X8. [ed[i]] for an integer [i] between [-len(ed)] and [len(ed) - 1]
    is the item of the event at position [i mod len(ed)], negative
    indexes counting from the end, with that position as its [pos]; any
    other integer raises an [EventLookupError] that tells the number of
    events. *)
Theorem eventdict_int_subscript (events : list event) (i : Z) :
  let n := Z.of_nat (length events) in
  ((- n ≤ i < n)%Z →
   ∃ e, events !! Z.to_nat (i `mod` n) = Some e ∧
        ed_getitem (EventDict_init events) (KInt i)
        = Return (single (Z.to_nat (i `mod` n)) e)) ∧
  (¬ (- n ≤ i < n)%Z →
   ed_getitem (EventDict_init events) (KInt i)
   = Raise (EventLookupError
              ("Index out of range - only " +:+ str_of_nat (length events)
                 +:+ " events fired"))).
Proof.
  cbn zeta. cbn [ed_getitem EventDict_init ed_ordered].
  assert (length (imap single events) = length events) as Hlen
    by apply length_imap.
  split; intros Hi.
  - rewrite list_getitem_Some, Hlen by (by rewrite Hlen).
    rewrite list_lookup_imap.
    destruct (lookup_lt_is_Some_2 events
                (Z.to_nat (i `mod` Z.of_nat (length events)))) as [e He].
    { pose proof (Z.mod_pos_bound i (Z.of_nat (length events))). lia. }
    exists e. by rewrite He.
  - rewrite list_getitem_None, Hlen by (by rewrite Hlen). done.
Qed.

(** *** OrderedDict *)

Lemma od_get_set od k v k' :
  od_get (od_set od k v) k' = if decide (k' = k) then Some v else od_get od k'.
Proof.
  induction od as [|[k0 v0] od IH]; simpl.
  { by destruct (decide (k' = k)). }
  destruct (decide (k = k0)) as [->|Hne]; simpl.
  - by destruct (decide (k' = k0)).
  - rewrite IH. destruct (decide (k' = k0)) as [->|]; [|done].
    by rewrite decide_False by done.
Qed.

Lemma od_keys_set od k v :
  (od_set od k v).*1 = if decide (k ∈ od.*1) then od.*1 else od.*1 ++ [k].
Proof.
  induction od as [|[k0 v0] od IH]; [done|]. cbn [od_set].
  destruct (decide (k = k0)) as [->|Hne]; rewrite !fmap_cons; cbn [fst].
  - by rewrite decide_True by left.
  - rewrite IH. case_decide as Hin.
    + by rewrite decide_True by (by right).
    + by rewrite decide_False by (by intros [?|?]%elem_of_cons).
Qed.

Lemma OrderedDict_snoc pairs k v :
  OrderedDict (pairs ++ [(k, v)]) = od_set (OrderedDict pairs) k v.
Proof. unfold OrderedDict. by rewrite foldl_app. Qed.

(** A key reads the value it was given last. *)
Lemma OrderedDict_get pairs k :
  od_get (OrderedDict pairs) k = snd <$> last (filter (λ kv, kv.1 = k) pairs).
Proof.
  induction pairs as [|[k0 v0] pairs IH] using rev_ind; [done|].
  rewrite OrderedDict_snoc, od_get_set, filter_app, filter_cons, filter_nil.
  simpl. destruct (decide (k = k0)) as [->|Hne].
  - rewrite decide_True by done. by rewrite last_snoc.
  - rewrite decide_False by done. by rewrite app_nil_r.
Qed.

(** The keys stand in the order in which they were first given. *)
Lemma OrderedDict_keys pairs :
  (OrderedDict pairs).*1 = first_occurrences pairs.*1.
Proof.
  induction pairs as [|[k0 v0] pairs IH] using rev_ind; [done|].
  rewrite OrderedDict_snoc, od_keys_set, fmap_app, IH.
  cbn [fmap list_fmap fst]. rewrite first_occurrences_snoc.
  case_decide as Hin.
  - rewrite decide_True; [done|]. by apply elem_of_first_occurrences.
  - rewrite decide_False; [done|]. by rewrite <- elem_of_first_occurrences.
Qed.

Lemma last_filter_fmap {A B} (f : A → B) (P : B → Prop)
    `{∀ x, Decision (P x)} (l : list A) :
  last (filter P (f <$> l)) = f <$> last (filter (λ x, P (f x)) l).
Proof.
  induction l as [|x l IH] using rev_ind; [done|].
  rewrite fmap_app. cbn [fmap list_fmap].
  rewrite !filter_app, !filter_cons, !filter_nil.
  case_decide.
  - by rewrite !last_snoc.
  - by rewrite !app_nil_r.
Qed.

(** X9. [ed[i][key]] reads the decoded event at position [i]: the value of
    its last argument named [key]; failing that, of its last argument
    named [key] followed by [" (indexed)"]; failing both, it raises an
    [EventLookupError] that lists the argument names, each once, in the
    order of the event, with the suffix stripped. *)
Theorem item_field_lookup (p : nat) (e : event) (key : string) :
  getitem (single p e) (KStr key) =
    match last (filter (λ d, d_name d = key) (e_data e)),
          last (filter (λ d, d_name d = key +:+ " (indexed)") (e_data e)) with
    | Some d, _ => Return (Field (d_value d))
    | None, Some d => Return (Field (d_value d))
    | None, None =>
        Raise (EventLookupError
                 (unknown_key_message key (e_name e)
                    (replace_indexed <$>
                       first_occurrences (d_name <$> e_data e))))
    end.
Proof.
  cbn [getitem].
  rewrite (getitem_str_first_firing (single p e) key _ eq_refl).
  unfold field_lookup, listed_keys. cbn [nesting single Nat.iter name].
  rewrite !OrderedDict_get, OrderedDict_keys.
  rewrite !(last_filter_fmap (λ x, (d_name x, d_value x)) (λ kv, kv.1 = _)).
  cbn [fst]. rewrite <- list_fmap_compose.
  destruct (last (filter (λ d, d_name d = key) _)) as [d|]; [done|].
  destruct (last (filter (λ d, d_name d = key +:+ _) _)) as [d|]; done.
Qed.

Lemma field_lookup_Return group_name levels od key v :
  field_lookup group_name levels od key = Return v ↔
  od_get od key = Some v ∨
  (od_get od key = None ∧ od_get od (key +:+ " (indexed)") = Some v).
Proof.
  unfold field_lookup. destruct (od_get od key) as [v1|].
  { split; [intros [= ->]; by left|]. intros [[= ->]|[? _]]; done. }
  destruct (od_get od (key +:+ " (indexed)")) as [v2|].
  { split; [intros [= ->]; by right|]. intros [?|[_ [= ->]]]; done. }
  split; [done|]. intros [?|[_ ?]]; done.
Qed.

(** X10. A lookup by field name in the group [ed[name]] is a lookup in
    the first event of that name: there is a first position [p] at which
    the name fired, [key in ed[name]] is [key in ed[p]], and
    [ed[name][key]] returns a value exactly when [ed[p][key]] returns
    it. *)
Theorem group_reads_first_firing (events : list event) (n : string)
    (g : _EventItem) :
  ed_getitem (EventDict_init events) (KStr n) = Return g →
  ∃ p e,
    events !! p = Some e ∧ e_name e = n ∧
    (∀ q e', events !! q = Some e' → e_name e' = n → p ≤ q) ∧
    (∀ key, contains g key = contains (single p e) key) ∧
    (∀ key v, getitem g (KStr key) = Return (Field v)
              ↔ getitem (single p e) (KStr key) = Return (Field v)).
Proof.
  intros Hg. pose proof Hg as [Hn ->]%ed_getitem_str_Return.
  pose proof (pos_of_members events n) as Hsorted.
  pose proof (members_positions events n) as Hpos.
  unfold group_of in *.
  destruct (filter (λ i, name i = n) (imap single events))
    as [|it rest] eqn:Hfilter.
  { apply count_positive in Hn. rewrite count_names, Hfilter in Hn.
    simpl in Hn. lia. }
  assert (it ∈ filter (λ i, name i = n) (imap single events)) as Hit.
  { rewrite Hfilter. left. }
  apply list_elem_of_filter in Hit as [Hname Hit].
  apply elem_of_items in Hit as (p & e & He & ->).
  exists p, e. split_and!; [done..| | |].
  - intros q e' He' Hname'.
    assert (q ∈ pos0 <$> single p e :: rest) as Hq by (apply Hpos; eauto).
    rewrite fmap_cons in Hq, Hsorted.
    apply StronglySorted_inv in Hsorted as [_ Hall].
    apply elem_of_cons in Hq as [->|Hq]; [done|].
    eapply Forall_forall in Hall; [|done].
    change (pos0 (single p e)) with p in Hall. lia.
  - done.
  - intros key v. cbn [getitem].
    set (group := EventItem n None _ _).
    rewrite (getitem_str_first_firing group key _ eq_refl).
    rewrite (getitem_str_first_firing (single p e) key _ eq_refl).
    destruct (field_lookup (name group) _ _ key) as [v1|e1] eqn:H1;
      destruct (field_lookup (name (single p e)) _ _ key) as [v2|e2] eqn:H2.
    + apply field_lookup_Return in H1, H2.
      assert (v1 = v2) as ->; [|done].
      destruct H1 as [Ha|[Ha Ha']], H2 as [Hb|[Hb Hb']]; simplify_eq; done.
    + apply field_lookup_Return in H1.
      apply (field_lookup_Return (name (single p e))
               (S (nesting (single p e)))) in H1. congruence.
    + apply field_lookup_Return in H2.
      apply (field_lookup_Return (name group) (S (nesting group))) in H2.
      congruence.
    + done.
Qed.

(** The [Transfer] group of the sample reads the event at position 0. *)
Lemma group_reads_first_firing_witness :
  ∃ p e,
    sample_events !! p = Some e ∧ e_name e = "Transfer" ∧
    (∀ q e', sample_events !! q = Some e' → e_name e' = "Transfer" → p ≤ q) ∧
    (∀ key, contains sample_group key = contains (single p e) key) ∧
    (∀ key v, getitem sample_group (KStr key) = Return (Field v)
              ↔ getitem (single p e) (KStr key) = Return (Field v)).
Proof.
  apply (group_reads_first_firing sample_events "Transfer" sample_group).
  by vm_compute.
Defined.

(** X11. [items()] of an EventDict holds the pair of a name and a group
    exactly when [ed[name]] returns that group; its names are [keys()]
    and its groups are [values()]; and [bool(ed)] is true exactly when
    the event list is not empty, when [len(ed)] is positive, and when
    [keys()] is not empty. *)
Theorem views_agree (events : list event) :
  (∀ n g, (n, g) ∈ ed_items (EventDict_init events)
          ↔ ed_getitem (EventDict_init events) (KStr n) = Return g) ∧
  (ed_items (EventDict_init events)).*1 = ed_keys (EventDict_init events) ∧
  (ed_items (EventDict_init events)).*2 = ed_values (EventDict_init events) ∧
  (ed_bool (EventDict_init events) = true ↔ events ≠ []) ∧
  (ed_bool (EventDict_init events) = true ↔ 0 < len (EventDict_init events)) ∧
  (ed_bool (EventDict_init events) = true
   ↔ ed_keys (EventDict_init events) ≠ []).
Proof.
  assert (ed_bool (EventDict_init events) = true ↔ events ≠ []) as Hbool.
  { unfold ed_bool. rewrite bool_decide_eq_true. cbn [EventDict_init ed_ordered].
    by destruct events. }
  split_and!; try done.
  - intros n g. rewrite ed_getitem_str_Return. unfold ed_items. split.
    + cbn [EventDict_init ed_dict].
      intros [Hnil|[Hn ->]]%group_loop_entries; [by apply elem_of_nil in Hnil|].
      by rewrite <- names_of_items.
    + intros [Hn ->].
      assert (n ∈ (ed_dict (EventDict_init events)).*1) as Hkey.
      { apply group_loop_keys. right. by rewrite names_of_items. }
      apply list_elem_of_fmap in Hkey as [[n' g'] [-> Hin]].
      pose proof Hin as Hin'. cbn [EventDict_init ed_dict] in Hin'.
      apply group_loop_entries in Hin' as [Hnil|[_ ->]];
        [by apply elem_of_nil in Hnil|done].
  - rewrite Hbool. unfold len. cbn [EventDict_init ed_ordered].
    rewrite length_imap. destruct events; simpl; [|split; [lia|done]].
    split; [done|lia].
  - rewrite Hbool.
    rewrite ed_keys_first_occurrences.
    by destruct events.
Qed.

End EventsFacts.

(** ** Properties of log decoding *)
Module DecodeFacts.
Import Py Topics Decode.

(** *** Runs *)

Lemma runs_head x l : ∃ r others, runs (x :: l) = (x :: r) :: others.
Proof.
  cbn [runs]. destruct (runs l) as [|[|y run] others]; try by eexists _, _.
  case_decide; by eexists _, _.
Qed.

Lemma runs_uniform a l :
  l ≠ [] → Forall (λ i, address i = a) l → runs l = [l].
Proof.
  induction l as [|x l IH]; [done|]. intros _ Hall.
  apply Forall_cons in Hall as [Hx Hall].
  destruct l as [|y l']; [done|].
  cbn [runs] in IH |- *. rewrite IH by done.
  apply Forall_cons in Hall as [Hy _].
  rewrite decide_True by congruence. done.
Qed.

Lemma runs_split a pre x post :
  pre ≠ [] → Forall (λ i, address i = a) pre → address x ≠ a →
  runs (pre ++ x :: post) = pre :: runs (x :: post).
Proof.
  induction pre as [|p pre IH]; [done|]. intros _ Hall Hx.
  apply Forall_cons in Hall as [Hp Hall].
  destruct pre as [|q pre'].
  - change (runs ([p] ++ x :: post)) with
      (match runs (x :: post) with
       | (y :: run) :: others =>
           if decide (address p = address y) then (p :: y :: run) :: others
           else [p] :: (y :: run) :: others
       | _ => [[p]]
       end).
    destruct (runs_head x post) as (r & others & ->).
    rewrite decide_False by congruence. done.
  - change (runs ((p :: q :: pre') ++ x :: post)) with
      (match runs ((q :: pre') ++ x :: post) with
       | (y :: run) :: others =>
           if decide (address p = address y) then (p :: y :: run) :: others
           else [p] :: (y :: run) :: others
       | _ => [[p]]
       end).
    rewrite IH by done.
    apply Forall_cons in Hall as [Hq _].
    rewrite decide_True by congruence. done.
Qed.

(** The runs are a partition of the sequence into consecutive pieces. *)
Lemma runs_concat l : concat (runs l) = l.
Proof.
  induction l as [|x l IH]; [done|].
  destruct l as [|y l']; [done|]. cbn [runs] in IH |- *.
  destruct (runs_head y l') as (r & others & Hr). cbn [runs] in Hr.
  rewrite Hr in IH |- *. case_decide; simpl in *; by rewrite IH.
Qed.

(** Within a run every entry has the address of the first. *)
Lemma runs_same_address l :
  Forall (λ run, run ≠ [] ∧ Forall (λ i, address i = run_address run) run)
    (runs l).
Proof.
  induction l as [|x l IH]; [constructor|]. cbn [runs].
  destruct (runs l) as [|[|y run] others].
  - repeat constructor; done.
  - repeat constructor; done.
  - apply Forall_cons in IH as [[_ Hrun] Hothers]. case_decide as Heq.
    + constructor; [|done]. split; [done|]. simpl in *.
      constructor; [done|]. by rewrite Heq.
    + constructor; [split; [done|by repeat constructor]|].
      constructor; [by split|done].
Qed.

(** Runs are maximal: two neighbouring runs differ in address. *)
Lemma runs_maximal l i r1 r2 :
  runs l !! i = Some r1 → runs l !! S i = Some r2 →
  ∃ a b, last r1 = Some a ∧ head r2 = Some b ∧ address a ≠ address b.
Proof.
  revert i r1 r2. induction l as [|x l IH]; intros i r1 r2; [done|].
  cbn [runs]. pose proof (runs_same_address l) as Hsame.
  destruct (runs l) as [|[|y run] others] eqn:Hruns; [done|..].
  - apply Forall_cons in Hsame as [[? _] _]. done.
  - case_decide as Heq.
    + destruct i as [|i]; simpl.
      * intros [= <-] Hr2.
        destruct (IH 0 (y :: run) r2) as (a & b & Ha & Hb & Hab); [done..|].
        exists a, b. by rewrite last_cons_cons.
      * intros Hr1 Hr2. by apply (IH (S i)).
    + destruct i as [|i]; simpl.
      * intros [= <-] [= <-]. by exists x, y.
      * intros Hr1 Hr2. by apply (IH i).
Qed.

(** *** The monad *)

Lemma mfold_app {A S} (f : A → S → M S) l1 l2 s w :
  mfold f (l1 ++ l2) s w = (let* s' := mfold f l1 s in mfold f l2 s') w.
Proof.
  revert s w. induction l1 as [|x l1 IH]; intros s w; [reflexivity|].
  cbn [app mfold]. unfold mbind in *.
  destruct (f x s w) as [[s'|e] w']; [apply IH|reflexivity].
Qed.

Lemma mbind_ret_r {A} (m : M A) w : (let* a := m in ret a) w = m w.
Proof. unfold mbind, ret. by destruct (m w) as [[a|e] w']. Qed.

Lemma mbind_assoc {A B C} (m : M A) (f : A → M B) (g : B → M C) w :
  (let* b := (let* a := m in f a) in g b) w
  = (let* a := m in let* b := f a in g b) w.
Proof. unfold mbind. by destruct (m w) as [[a|e] w']. Qed.

Lemma mbind_ext {A B} (m : M A) (k1 k2 : A → M B) w :
  (∀ a w', k1 a w' = k2 a w') → mbind m k1 w = mbind m k2 w.
Proof. intros Hk. unfold mbind. destruct (m w) as [[a|e] w']; [apply Hk|done]. Qed.

(** *** The ds-note decoder *)

Section ds_note.
Context (l : log) (c : contract) (topic0 : list Byte.byte)
  (rest : list (list Byte.byte)).
Context (Htopics : topics l = topic0 :: rest).

(** The four ways in which the decoder declines. *)
Lemma ds_note_unknown_selector :
  selectors c !! hex (take 4 topic0) = None →
  _decode_ds_note l c = Return None.
Proof using Htopics. intros Hsel. unfold _decode_ds_note. by rewrite Htopics, Hsel. Qed.

Lemma ds_note_nonzero_padding :
  py_sum (drop 4 topic0) ≠ 0%N → _decode_ds_note l c = Return None.
Proof using Htopics.
  intros Hsum. unfold _decode_ds_note. rewrite Htopics.
  destruct (selectors c !! _); [|done].
  apply N.eqb_neq in Hsum. by rewrite Hsum.
Qed.

Lemma ds_note_selector_not_in_payload payload :
  fromhex (str_drop 2 (data l)) = Some payload →
  bytes_index payload (take 4 topic0) = None →
  _decode_ds_note l c = Return None.
Proof using Htopics.
  intros Hhex Hidx. unfold _decode_ds_note. rewrite Htopics.
  destruct (selectors c !! _); [|done].
  destruct (negb _); [done|].
  unfold try_decode_input. by rewrite Hhex, Hidx.
Qed.

Lemma ds_note_decode_value_error payload i :
  fromhex (str_drop 2 (data l)) = Some payload →
  bytes_index payload (take 4 topic0) = Some i →
  decode_input c (drop i payload) = Raise ValueError →
  _decode_ds_note l c = Return None.
Proof using Htopics.
  intros Hhex Hidx Hdec. unfold _decode_ds_note. rewrite Htopics.
  destruct (selectors c !! _); [|done].
  destruct (negb _); [done|].
  unfold try_decode_input. by rewrite Hhex, Hidx, Hdec.
Qed.

(** Any other exception of [decode_input] is not caught. *)
Lemma ds_note_decode_other_error payload i name e :
  selectors c !! hex (take 4 topic0) = Some name →
  py_sum (drop 4 topic0) = 0%N →
  fromhex (str_drop 2 (data l)) = Some payload →
  bytes_index payload (take 4 topic0) = Some i →
  decode_input c (drop i payload) = Raise e → e ≠ ValueError →
  _decode_ds_note l c = Raise e.
Proof using Htopics.
  intros Hsel Hsum Hhex Hidx Hdec Hne. unfold _decode_ds_note.
  rewrite Htopics, Hsel, Hsum. cbn [N.eqb negb].
  unfold try_decode_input. rewrite Hhex, Hidx, Hdec.
  by destruct e.
Qed.

End ds_note.

(** A ds-note entry of the sample contract is decoded. *)
Example ds_note_decodes :
  _decode_ds_note (note_log "0xA1" 0) sample_contract
  = Return (Some (Decoded (Events.Event "rely" "0xA1" true
                             [Events.Datum "usr" "address" (Events.VInt 9) true]))).
Proof. by vm_compute. Qed.

(** C6 at an entry without topics (an anonymous event with no indexed
    argument): [log.topics[0]] raises [IndexError], which leaves the
    decoder, and leaves [_decode_logs] before the standard decoder is
    tried, whatever the contract and the external decoders. *)
Theorem ds_note_no_topics_raises
    (eth_event_decode_logs :
       gmap string topic_entry → log → string + list raw_event)
    (format_event : raw_event → Events.event)
    (_deployment_topics : gmap string (gmap string topic_entry))
    (_topics : gmap string topic_entry)
    (addr : string) (i : N) (c : contract) (w : list string) :
  _decode_ds_note (anonymous_log addr i) c = Raise IndexError ∧
  _decode_logs eth_event_decode_logs format_event _deployment_topics _topics
    [anonymous_log addr i] (Some {[ addr := Some c ]}) w
  = (Raise IndexError, w).
Proof.
  split; [done|].
  unfold _decode_logs. cbn [length scan_loop lookup list_lookup].
  unfold next_other. cbn [drop list_find].
  rewrite decide_False by (intros Hne; by apply Hne).
  cbn [fmap option_fmap option_map].
  unfold mbind, decode_slice. cbn [mfold].
  unfold mbind, decode_item, special_decode, contract_of.
  rewrite decide_False by apply map_non_empty_singleton.
  cbn [address anonymous_log]. by rewrite lookup_singleton_eq.
Qed.

(** *** The scan *)

Lemma next_other_None a l :
  next_other a l = None → Forall (λ i, address i = a) l.
Proof.
  unfold next_other. intros Hnone.
  destruct (list_find _ l) as [[j x]|] eqn:Hfind; [done|].
  apply list_find_None in Hfind.
  eapply Forall_impl; [exact Hfind|]. intros i Hi. simpl in Hi.
  by destruct (decide (address i = a)).
Qed.

Lemma next_other_Some a l x :
  next_other a l = Some x →
  ∃ j, l !! j = Some x ∧ address x ≠ a ∧
       Forall (λ i, address i = a) (take j l).
Proof.
  unfold next_other. intros Hsome.
  destruct (list_find _ l) as [[j y]|] eqn:Hfind; [|done].
  injection Hsome as ->.
  apply list_find_Some in Hfind as (Hj & Hx & Hbefore).
  exists j. split_and!; [done..|].
  apply Forall_lookup. intros k i Hk.
  apply lookup_take_Some in Hk as [Hk Hlt].
  specialize (Hbefore k i Hk Hlt). simpl in Hbefore.
  by destruct (decide (address i = a)).
Qed.

(** Among pairwise distinct entries, [logs.index] finds the position one
    has in mind. *)
Lemma index_NoDup logs k x :
  NoDup logs → logs !! k = Some x → index logs x = Some k.
Proof.
  intros Hnd Hk. unfold index.
  assert (list_find (λ i, i = x) logs = Some (k, x)) as ->; [|done].
  apply list_find_Some. split_and!; [done..|].
  intros j y Hj Hlt ->.
  pose proof (NoDup_lookup _ _ _ _ Hnd Hj Hk). lia.
Qed.

Lemma index_lt logs x k : index logs x = Some k → k < length logs.
Proof.
  unfold index. destruct (list_find _ logs) as [[j y]|] eqn:Hfind; [|done].
  intros [= <-]. apply list_find_Some in Hfind as (Hj & _).
  by eapply lookup_lt_Some.
Qed.

(** The bound is never what ends the loop: every pass that goes on has
    moved [idx] forward, whatever the entries. *)
Lemma scan_loop_total {St} (on_slice : string → list log → St → M St)
    logs fuel idx s w :
  idx < length logs → length logs - idx ≤ fuel →
  (scan_loop on_slice logs fuel idx s w).1 ≠ Return None.
Proof.
  revert idx s w. induction fuel as [|fuel IH]; intros idx s w Hidx Hfuel.
  { lia. }
  destruct (lookup_lt_is_Some_2 logs idx Hidx) as [first Hfirst].
  cbn [scan_loop]. rewrite Hfirst.
  destruct (next_other (address first) (drop idx logs)) as [other|].
  - destruct (index logs other) as [new_idx|] eqn:Hindex; [|done].
    apply index_lt in Hindex. unfold mbind.
    destruct (on_slice _ _ s w) as [[s'|e] w']; [|done].
    destruct (last (slice logs idx new_idx)) as [a|] eqn:Hslice; [|done].
    destruct (last logs) as [b|]; [|done].
    case_decide; [done|].
    apply IH; [done|].
    assert (idx < new_idx); [|lia].
    destruct (decide (idx < new_idx)) as [|Hge]; [done|].
    unfold slice in Hslice. by replace (new_idx - idx) with 0 in Hslice by lia.
  - unfold mbind. destruct (on_slice _ _ s w) as [[s'|e] w']; [|done].
    assert (last (drop idx logs) = last logs) as ->.
    { rewrite !last_lookup, lookup_drop, length_drop. f_equal. lia. }
    destruct (last logs) as [b|]; [|done]. by rewrite decide_True.
Qed.

Section scan.
Context {St : Type} (on_slice : string → list log → St → M St).
Context (logs : list log) (logs_NoDup : NoDup logs).

(** Over pairwise distinct entries the loop visits the maximal runs of
    what is left of the sequence, and ends after the last of them. *)
Lemma scan_loop_runs fuel idx s w :
  idx < length logs → length logs - idx ≤ fuel →
  scan_loop on_slice logs fuel idx s w
  = over_runs on_slice (runs (drop idx logs)) s w.
Proof using logs_NoDup.
  revert idx s w. induction fuel as [|fuel IH]; intros idx s w Hidx Hfuel.
  { lia. }
  destruct (lookup_lt_is_Some_2 logs idx Hidx) as [first Hfirst].
  assert (drop idx logs !! 0 = Some first) as Hhead.
  { by rewrite lookup_drop, Nat.add_0_r. }
  assert (∃ b, last logs = Some b ∧ logs !! (length logs - 1) = Some b)
    as (b & Hlast & Hb).
  { rewrite last_lookup.
    destruct (lookup_lt_is_Some_2 logs (pred (length logs))) as [b Hb]; [lia|].
    exists b. split; [done|].
    by replace (length logs - 1) with (pred (length logs)) by lia. }
  cbn [scan_loop]. rewrite Hfirst.
  destruct (next_other (address first) (drop idx logs)) as [other|] eqn:Hnext.
  - apply next_other_Some in Hnext as (j & Hj & Hother & Hpre).
    assert (j ≠ 0) as Hj0.
    { intros ->. rewrite Hhead in Hj. by injection Hj as ->. }
    assert (logs !! (idx + j) = Some other) as Hj'.
    { by rewrite <- lookup_drop. }
    pose proof (lookup_lt_Some _ _ _ Hj') as Hlen.
    rewrite (index_NoDup logs (idx + j) other) by done.
    unfold slice. replace (idx + j - idx) with j by lia.
    set (pre := take j (drop idx logs)) in *.
    assert (pre !! 0 = Some first) as Hpre0.
    { unfold pre. rewrite lookup_take_lt by lia. done. }
    assert (drop idx logs = pre ++ other :: drop (idx + j) (drop 1 logs))
      as Hsplit.
    { unfold pre. rewrite <- (take_drop_middle _ _ _ Hj) at 1.
      do 2 f_equal. rewrite !drop_drop. f_equal. lia. }
    assert (drop (idx + j) logs = other :: drop (idx + j) (drop 1 logs))
      as Hrest.
    { rewrite drop_drop. replace (1 + (idx + j)) with (S (idx + j)) by lia.
      by apply drop_S. }
    assert (pre ≠ []) as Hne.
    { intros Hnil. by rewrite Hnil in Hpre0. }
    assert (run_address pre = address first) as Haddr.
    { destruct pre as [|p pre']; [done|]. simpl in *. congruence. }
    rewrite Hsplit, (runs_split (address first)) by done.
    rewrite <- Hrest.
    unfold over_runs. cbn [mfold]. rewrite Haddr, mbind_assoc.
    apply mbind_ext. intros s' w'.
    assert (∃ a, last pre = Some a ∧ a ≠ b) as (a & -> & Hab).
    { rewrite last_lookup.
      assert (length pre = j) as Hlpre.
      { unfold pre. rewrite length_take, length_drop. lia. }
      destruct (lookup_lt_is_Some_2 pre (pred (length pre))) as [a Ha]; [lia|].
      exists a. split; [done|]. intros ->.
      rewrite Hlpre in Ha.
      unfold pre in Ha. apply lookup_take_Some in Ha as [Ha _].
      rewrite lookup_drop in Ha.
      pose proof (NoDup_lookup _ _ _ _ logs_NoDup Ha Hb). lia. }
    rewrite Hlast, decide_False by done.
    rewrite IH by lia. done.
  - apply next_other_None in Hnext.
    assert (drop idx logs ≠ []) as Hne.
    { intros Hnil. by rewrite Hnil in Hhead. }
    rewrite (runs_uniform (address first)) by done.
    assert (run_address (drop idx logs) = address first) as Haddr.
    { destruct (drop idx logs) as [|p rest]; [done|]. simpl in *. congruence. }
    unfold over_runs. cbn [mfold]. rewrite Haddr, mbind_assoc.
    apply mbind_ext. intros s' w'.
    assert (last (drop idx logs) = Some b) as ->.
    { rewrite last_lookup, lookup_drop, length_drop.
      rewrite <- Hb. f_equal. lia. }
    rewrite Hlast, decide_True by done. done.
Qed.

End scan.




Section decode_logs.
Context (eth_event_decode_logs :
           gmap string topic_entry → log → string + list raw_event).
Context (format_event : raw_event → Events.event).
Context (_deployment_topics : gmap string (gmap string topic_entry)).
Context (_topics : gmap string topic_entry).

Abbreviation decode_slice :=
  (decode_slice eth_event_decode_logs _deployment_topics _topics).
Abbreviation decode_each :=
  (decode_each eth_event_decode_logs _deployment_topics _topics).
Abbreviation _decode_logs :=
  (_decode_logs eth_event_decode_logs format_event _deployment_topics _topics).
Abbreviation in_order :=
  (in_order eth_event_decode_logs format_event _deployment_topics _topics).
Abbreviation standard_events :=
  (standard_events eth_event_decode_logs _deployment_topics _topics).
Abbreviation standard_warnings :=
  (standard_warnings eth_event_decode_logs _deployment_topics _topics).
Abbreviation entry_events :=
  (entry_events eth_event_decode_logs _deployment_topics _topics).
Abbreviation entry_warnings :=
  (entry_warnings eth_event_decode_logs _deployment_topics _topics).

(** A run decoded under its address is its entries decoded one by one. *)
Lemma decode_slice_each contracts a run events w :
  Forall (λ i, address i = a) run →
  decode_slice contracts a run events w
  = mfold (λ item, decode_slice contracts (address item) [item]) run events w.
Proof.
  intros Hall. revert events w.
  induction Hall as [|x run Hx Hall IH]; intros events w; [done|].
  unfold Decode.decode_slice in *. cbn [mfold]. rewrite Hx, mbind_assoc.
  apply mbind_ext. intros events' w'. unfold mbind at 2. cbn [ret].
  apply IH.
Qed.

Lemma decode_runs_each contracts rs events w :
  Forall (λ run, run ≠ [] ∧ Forall (λ i, address i = run_address run) run) rs →
  mfold (λ run, decode_slice contracts (run_address run) run) rs events w
  = mfold (λ item, decode_slice contracts (address item) [item])
      (concat rs) events w.
Proof.
  intros Hall. revert events w.
  induction Hall as [|run rs [_ Hrun] Hall IH]; intros events w; [done|].
  cbn [mfold concat]. rewrite mfold_app.
  unfold mbind. rewrite decode_slice_each by done.
  destruct (mfold _ run events w) as [[events'|e] w']; [apply IH|done].
Qed.

(** [_decode_logs] returns or raises on every input: the loop bound is
    never met. *)
Lemma decode_logs_total logs contracts w :
  (_decode_logs logs contracts w).1 ≠ Return None.
Proof.
  destruct logs as [|x logs]; [done|].
  unfold Decode._decode_logs, mbind.
  pose proof (scan_loop_total (decode_slice contracts) (x :: logs)
                (length (x :: logs)) 0 [] w) as Htotal.
  destruct (scan_loop _ _ _ _ _ w) as [[[events|]|e] w']; try done.
  exfalso. apply Htotal; [simpl; lia..|done].
Qed.

(** Over pairwise distinct entries, [_decode_logs] is the decoding of the
    entries one by one, in the order of the input. *)
Lemma decode_logs_NoDup logs contracts w :
  NoDup logs → _decode_logs logs contracts w = in_order contracts logs w.
Proof.
  intros Hnd. destruct logs as [|x logs]; [done|].
  unfold Decode._decode_logs, Decode.in_order, Decode.decode_each.
  assert (0 < length (x :: logs)) as Hlen by (simpl; lia).
  set (l := x :: logs) in *.
  unfold mbind at 1. rewrite scan_loop_runs by (try done; lia).
  unfold over_runs. change (drop 0 l) with l.
  unfold mbind at 1. rewrite decode_runs_each by apply runs_same_address.
  rewrite runs_concat. unfold mbind.
  by destruct (mfold _ l [] w) as [[events|e] w'].
Qed.


(** When the special decoder returns for every entry, no entry raises:
    each adds what it contributes, events and warnings, in its turn. *)
Lemma decode_each_returns contracts logs events w :
  Forall (λ item, returns (special_decode contracts item)) logs →
  mfold (λ item, decode_slice contracts (address item) [item]) logs events w
  = (Return (events ++ concat (entry_events contracts <$> logs)),
     w ++ concat (entry_warnings contracts <$> logs)).
Proof.
  intros Hall. revert events w.
  induction Hall as [|x logs Hx Hall IH]; intros events w.
  { simpl. by rewrite !app_nil_r. }
  cbn [mfold]. unfold mbind at 1.
  unfold Decode.decode_slice at 1. cbn [mfold].
  unfold decode_item, decode_standard.
  unfold Decode.entry_events, Decode.entry_warnings,
    Decode.standard_events, Decode.standard_warnings in *.
  rewrite !fmap_cons. cbn [concat].
  destruct (special_decode contracts x) as [[note|]|e]; [| |done].
  - simpl. rewrite IH. by rewrite <- ?app_assoc.
  - destruct (eth_event_decode_logs _ x) as [exc|decoded]; simpl.
    + rewrite IH. by rewrite <- ?app_assoc.
    + rewrite IH. by rewrite <- ?app_assoc.
Qed.


(** C5 (amended). Two consecutive logs of the same address which the
    special decoder leaves to the standard one, and on which the standard
    decoder raises an [EventError], are both dropped; one warning is
    emitted for each, and the result has length 0. *)
Theorem decode_logs_two_errors (a b : log) (ea eb : string)
    (contracts : option (gmap string (option contract))) (w : list string) :
  address a = address b →
  special_decode contracts a = Return None →
  special_decode contracts b = Return None →
  eth_event_decode_logs
    (default _topics (_deployment_topics !! address a)) a = inl ea →
  eth_event_decode_logs
    (default _topics (_deployment_topics !! address a)) b = inl eb →
  _decode_logs [a; b] contracts w =
    (Return (Some (Events.EventDict_init [])),
     w ++ [address a +:+ ": " +:+ ea; address a +:+ ": " +:+ eb]) ∧
  Events.len (Events.EventDict_init []) = 0.
Proof.
  intros Hab Hsa Hsb Ha Hb. split; [|done].
  unfold Decode._decode_logs. cbn [length scan_loop lookup list_lookup].
  unfold next_other. cbn [drop list_find].
  rewrite decide_False by (intros Hne; by apply Hne).
  rewrite decide_False by (intros Hne; by apply Hne).
  cbn [fmap option_fmap option_map].
  unfold mbind, Decode.decode_slice. cbn [mfold].
  unfold mbind, decode_item, decode_standard.
  rewrite Hsa, Hsb, Ha, Hb. unfold mbind, warn, ret. cbn [last].
  rewrite decide_True by done. cbn. by rewrite <- app_assoc.
Qed.

End decode_logs.


Lemma decode_logs_two_errors_witness :
  _decode_logs standard_decode format_event_model ∅ sample_topics
    [malformed_log "0xA1" 0; malformed_log "0xA1" 1] None []
  = (Return (Some (Events.EventDict_init [])),
     ["0xA1: Invalid log data"; "0xA1: Invalid log data"]).
Proof.
  refine (proj1 (decode_logs_two_errors standard_decode format_event_model
                   ∅ sample_topics
                   (malformed_log "0xA1" 0) (malformed_log "0xA1" 1)
                   "Invalid log data" "Invalid log data" None [] _ _ _ _ _)).
  - reflexivity.
  - reflexivity.
  - reflexivity.
  - by vm_compute.
  - by vm_compute.
Defined.

(** With the sample contract at hand for [0xA1], its ds-note entry becomes
    the event [rely]; the [Transfer] behind it, whose first topic is no
    selector of the contract, is left to the standard decoder. *)
Example decode_logs_with_note :
  (λ ed, Events.name <$> Events.ed_ordered ed) <$$>
    (_decode_logs standard_decode format_event_model ∅ sample_topics
       [note_log "0xA1" 0; transfer_log "0xA1" 1]
       (Some {[ "0xA1" := Some sample_contract ]}) []).1
  = Return (Some ["rely"; "Transfer"]).
Proof. by vm_compute. Qed.

(** The order of occurrence matters through the distinctness it gives:
    [logs.index] and the final [==] compare entries by value, so a list
    in which the same entry occurs twice is cut short after the first run
    or ends in the [IndexError] of [log_slice[-1]]. *)
Example decode_logs_repeated_entry :
  decoded_len (_decode_logs standard_decode format_event_model ∅ sample_topics
                 [transfer_log "0xA1" 0; transfer_log "0xB2" 1;
                  transfer_log "0xA1" 0] None [])
  = Some 1 ∧
  (_decode_logs standard_decode format_event_model ∅ sample_topics
     [transfer_log "0xA1" 0; transfer_log "0xB2" 1;
      transfer_log "0xA1" 0; transfer_log "0xC3" 3] None []).1
  = Raise IndexError.
Proof. by vm_compute. Qed.

(** The input of C5 under the decoders the spec describes: both entries
    have a topic absent from the topic maps; both are kept as events with
    placeholder fields, and no warning is emitted. *)
Lemma decode_logs_unknown_topic_kept :
  decoded_len (_decode_logs standard_decode format_event_model ∅ sample_topics
                 [unknown_log "0xA1" 0; unknown_log "0xA1" 1] None [])
  = Some 2 ∧
  (_decode_logs standard_decode format_event_model ∅ sample_topics
     [unknown_log "0xA1" 0; unknown_log "0xA1" 1] None []).2 = [] ∧
  sample_topics !! hex unknown_topic = None.
Proof. by vm_compute. Qed.

(** *** What the result depends on *)

(** The loop hands its body nothing but pieces of the input, under the
    address of an entry of the input: two bodies that agree on those give
    the same loop. *)
Lemma scan_loop_ext {St} (f g : string → list log → St → M St) logs :
  (∀ a sl s w, a ∈ address <$> logs → sl ⊆ logs → f a sl s w = g a sl s w) →
  ∀ fuel idx s w, scan_loop f logs fuel idx s w = scan_loop g logs fuel idx s w.
Proof.
  intros Hfg fuel. induction fuel as [|fuel IH]; intros idx s w; [done|].
  cbn [scan_loop]. destruct (logs !! idx) as [first|] eqn:Hfirst; [|done].
  assert (address first ∈ address <$> logs) as Haddr.
  { apply list_elem_of_fmap_2. by eapply list_elem_of_lookup_2. }
  destruct (next_other _ _) as [other|].
  - destruct (index logs other) as [new_idx|]; [|done].
    unfold mbind. rewrite Hfg; [|done|].
    + destruct (g _ _ s w) as [[s'|e] w']; [|done].
      destruct (last _), (last logs); try done. case_decide; [done|apply IH].
    + unfold slice. intros x Hx.
      eapply elem_of_sublist; [|apply (sublist_drop _ idx)].
      eapply elem_of_sublist; [exact Hx|apply sublist_take].
  - unfold mbind. rewrite Hfg; [|done|].
    + destruct (g _ _ s w) as [[s'|e] w']; [|done].
      destruct (last _), (last logs); try done. case_decide; [done|apply IH].
    + apply subseteq_drop.
Qed.

Section decode_logs_inputs.
Context (eth_event_decode_logs :
           gmap string topic_entry → log → string + list raw_event).
Context (format_event : raw_event → Events.event).

Lemma mfold_ext {A St} (f g : A → St → M St) l s w :
  (∀ x s w, x ∈ l → f x s w = g x s w) → mfold f l s w = mfold g l s w.
Proof.
  revert s w. induction l as [|x l IH]; intros s w Hfg; [done|].
  cbn [mfold]. unfold mbind. rewrite Hfg by left.
  destruct (g x s w) as [[s'|e] w']; [|done].
  apply IH. intros y s0 w0 Hy. apply Hfg. by right.
Qed.

Lemma decode_logs_ext dt1 t1 c1 dt2 t2 c2 logs w :
  Forall (λ item, default t1 (dt1 !! address item)
                  = default t2 (dt2 !! address item)) logs →
  Forall (λ item, special_decode c1 item = special_decode c2 item) logs →
  _decode_logs eth_event_decode_logs format_event dt1 t1 logs c1 w
  = _decode_logs eth_event_decode_logs format_event dt2 t2 logs c2 w.
Proof.
  intros Hmaps Hspecial. unfold _decode_logs.
  destruct logs as [|x logs]; [done|]. set (l := x :: logs) in *.
  unfold mbind.
  rewrite (scan_loop_ext _ (decode_slice eth_event_decode_logs dt2 t2 c2) l);
    [done|].
  intros a sl s w' (item & -> & Hitem)%list_elem_of_fmap Hsl.
  unfold decode_slice.
  rewrite (proj1 (Forall_forall _ _) Hmaps item Hitem).
  apply mfold_ext. intros y s0 w0 Hy. unfold decode_item.
  by rewrite (proj1 (Forall_forall _ _) Hspecial y (Hsl y Hy)).
Qed.

(** X12. Once [_add_deployment_topics] has stored a topic map for an
    address, logs of that address are decoded with that map alone, as if
    it were the general map and no deployment map existed: the general
    map is not consulted, not even for topics the stored map lacks. Logs
    of other addresses are decoded as before the call. A second call for
    the address replaces the map of the first. *)
Theorem deployment_topics_take_precedence (a : string)
    (m m0 : gmap string topic_entry)
    (_deployment_topics : gmap string (gmap string topic_entry))
    (_topics : gmap string topic_entry) (logs : list log)
    (contracts : option (gmap string (option contract))) (w : list string) :
  (Forall (λ item, address item = a) logs →
   _decode_logs eth_event_decode_logs format_event
     (_add_deployment_topics a m _deployment_topics) _topics logs contracts w
   = _decode_logs eth_event_decode_logs format_event ∅ m logs contracts w) ∧
  (Forall (λ item, address item ≠ a) logs →
   _decode_logs eth_event_decode_logs format_event
     (_add_deployment_topics a m _deployment_topics) _topics logs contracts w
   = _decode_logs eth_event_decode_logs format_event
       _deployment_topics _topics logs contracts w) ∧
  _add_deployment_topics a m (_add_deployment_topics a m0 _deployment_topics)
  = _add_deployment_topics a m _deployment_topics.
Proof.
  unfold _add_deployment_topics. split_and!.
  - intros Hall. apply decode_logs_ext; [|by apply Forall_true].
    eapply Forall_impl; [exact Hall|]. intros item ->.
    by rewrite lookup_insert_eq, lookup_empty.
  - intros Hall. apply decode_logs_ext; [|by apply Forall_true].
    eapply Forall_impl; [exact Hall|]. intros item Hne.
    by rewrite lookup_insert_ne.
  - apply insert_insert_eq.
Qed.

Context (_deployment_topics : gmap string (gmap string topic_entry)).
Context (_topics : gmap string topic_entry).

Abbreviation decode_slice :=
  (decode_slice eth_event_decode_logs _deployment_topics _topics).
Abbreviation _decode_logs :=
  (_decode_logs eth_event_decode_logs format_event _deployment_topics _topics).
Abbreviation in_order :=
  (in_order eth_event_decode_logs format_event _deployment_topics _topics).
Abbreviation entry_events :=
  (entry_events eth_event_decode_logs _deployment_topics _topics).
Abbreviation entry_warnings :=
  (entry_warnings eth_event_decode_logs _deployment_topics _topics).

(** X13. [_decode_logs] with an empty [contracts] dict, or with one that
    holds [None] for the address of every log, gives what it gives
    without [contracts]; with a non-empty dict that lacks the address of
    the first log, it raises [KeyError] before anything is decoded. *)
Theorem decode_logs_falsy_contracts (cs : gmap string (option contract))
    (logs : list log) (w : list string) :
  _decode_logs logs (Some ∅) w = _decode_logs logs None w ∧
  (Forall (λ item, cs !! address item = Some None) logs →
   _decode_logs logs (Some cs) w = _decode_logs logs None w) ∧
  (∀ item rest, logs = item :: rest → cs ≠ ∅ → cs !! address item = None →
   _decode_logs logs (Some cs) w = (Raise (KeyError (address item)), w)).
Proof.
  split_and!.
  - apply decode_logs_ext; [by apply Forall_true|]. by apply Forall_true.
  - intros Hall. apply decode_logs_ext; [by apply Forall_true|].
    eapply Forall_impl; [exact Hall|]. intros item Hitem.
    unfold special_decode, contract_of. rewrite Hitem.
    by destruct (decide (cs = ∅)).
  - intros item rest -> Hne Hmissing.
    unfold Decode._decode_logs. cbn [length scan_loop lookup list_lookup].
    assert (special_decode (Some cs) item = Raise (KeyError (address item)))
      as Hraise.
    { unfold special_decode, contract_of.
      by rewrite decide_False, Hmissing by done. }
    destruct (next_other _ _) as [other|] eqn:Hnext.
    + apply next_other_Some in Hnext as (j & Hj & Hother & _).
      destruct j as [|j]; [simpl in Hj; by injection Hj as ->|].
      destruct (index (item :: rest) other) as [new_idx|] eqn:Hindex.
      * unfold index in Hindex.
        destruct (list_find _ _) as [[k y]|] eqn:Hfind; [|done].
        injection Hindex as ->.
        apply list_find_Some in Hfind as (Hk & -> & _).
        destruct new_idx as [|new_idx]; [simpl in Hk; by injection Hk as ->|].
        unfold slice. cbn [drop]. rewrite Nat.sub_0_r. cbn [take].
        unfold mbind, Decode.decode_slice. cbn [mfold]. unfold mbind, decode_item.
        by rewrite Hraise.
      * exfalso. unfold index in Hindex.
        destruct (list_find_elem_of (λ i, i = other) (item :: rest) other)
          as [? Hsome]; [by eapply list_elem_of_lookup_2|done|].
        by rewrite Hsome in Hindex.
    + cbn [drop]. unfold mbind, Decode.decode_slice. cbn [mfold].
      unfold mbind, decode_item. by rewrite Hraise.
Qed.

(** X14. Over pairwise distinct logs, an exception of the special decoder
    (or of the lookup in [contracts]) at an entry leaves [_decode_logs]:
    the entries before it have been decoded and their warnings emitted,
    the events decoded so far are lost, and no later entry is looked
    at. *)
Theorem decode_logs_first_error (pre post : list log) (x : log) (e : exn)
    (contracts : option (gmap string (option contract))) (w : list string) :
  NoDup (pre ++ x :: post) →
  Forall (λ item, returns (special_decode contracts item)) pre →
  special_decode contracts x = Raise e →
  _decode_logs (pre ++ x :: post) contracts w
  = (Raise e, w ++ concat (entry_warnings contracts <$> pre)).
Proof.
  intros Hnd Hpre Hx. rewrite decode_logs_NoDup by done.
  unfold Decode.in_order, Decode.decode_each. unfold mbind at 1.
  rewrite mfold_app. unfold mbind at 1.
  rewrite decode_each_returns by done.
  cbn [mfold]. unfold mbind at 1. unfold Decode.decode_slice at 1.
  cbn [mfold]. unfold mbind at 1. unfold decode_item. by rewrite Hx.
Qed.

(** X15. Logs that all come from one address are decoded in one slice,
    entry by entry in the order of the input, also when the same entry
    occurs more than once; when the special decoder returns for every
    entry, the call returns the EventDict of what the entries
    contribute. *)
Theorem decode_logs_single_address (a : string) (logs : list log)
    (contracts : option (gmap string (option contract))) (w : list string) :
  Forall (λ item, address item = a) logs →
  _decode_logs logs contracts w = in_order contracts logs w ∧
  (Forall (λ item, returns (special_decode contracts item)) logs →
   _decode_logs logs contracts w =
     (Return (Some (Events.EventDict_init
                      (format_event <$>
                         concat (entry_events contracts <$> logs)))),
      w ++ concat (entry_warnings contracts <$> logs))).
Proof.
  intros Hall.
  assert (_decode_logs logs contracts w = in_order contracts logs w) as Heq.
  { destruct logs as [|x logs]; [done|].
    unfold Decode._decode_logs, Decode.in_order, Decode.decode_each.
    set (l := x :: logs) in *.
    cbn [length l scan_loop lookup list_lookup].
    assert (address x = a) as Hx by (by apply Forall_cons in Hall as [? _]).
    assert (next_other (address x) (drop 0 l) = None) as ->.
    { unfold next_other. apply fmap_None, list_find_None.
      eapply Forall_impl; [exact Hall|]. intros item Hitem Hne.
      apply Hne. congruence. }
    unfold mbind.
    rewrite (decode_slice_each _ _ _ contracts (address x)) by (by rewrite Hx).
    change (drop 0 l) with l.
    destruct (mfold _ l [] w) as [[events|e] w']; [|done].
    destruct (last l) as [b|] eqn:Hlast; [|by apply last_None in Hlast].
    by rewrite decide_True. }
  split; [done|]. intros Hret. rewrite Heq.
  unfold Decode.in_order, Decode.decode_each, mbind.
  by rewrite decode_each_returns.
Qed.

End decode_logs_inputs.

(** The malformed entry is warned about, the anonymous entry raises, and
    the entry behind it is never decoded. *)
Lemma decode_logs_first_error_witness :
  Decode._decode_logs standard_decode format_event_model ∅ sample_topics
    [malformed_log "0xA1" 0; anonymous_log "0xA1" 1; transfer_log "0xA1" 2]
    (Some {[ "0xA1" := Some sample_contract ]}) []
  = (Raise IndexError, ["0xA1: Invalid log data"]).
Proof.
  etrans.
  - apply (decode_logs_first_error standard_decode format_event_model
             ∅ sample_topics [malformed_log "0xA1" 0] [transfer_log "0xA1" 2]
             (anonymous_log "0xA1" 1) IndexError
             (Some {[ "0xA1" := Some sample_contract ]}) []).
    + apply (bool_decide_unpack _). by vm_compute.
    + constructor; [by vm_compute|constructor].
    + by vm_compute.
  - by vm_compute.
Defined.

(** Three entries of one address, the first and the last equal: all three
    are decoded. *)
Lemma decode_logs_single_address_witness :
  decoded_len
    (Decode._decode_logs standard_decode format_event_model ∅ sample_topics
       [transfer_log "0xA1" 0; unknown_log "0xA1" 1; transfer_log "0xA1" 0]
       None [])
  = Some 3.
Proof.
  destruct (decode_logs_single_address standard_decode format_event_model
              ∅ sample_topics "0xA1"
              [transfer_log "0xA1" 0; unknown_log "0xA1" 1;
               transfer_log "0xA1" 0] None []) as [Heq _].
  - by repeat constructor.
  - rewrite Heq. by vm_compute.
Defined.

(** *** Hex strings and byte search *)

Lemma concat_empty_cons x xs :
  String.concat "" (x :: xs) = x +:+ String.concat "" xs.
Proof.
  destruct xs as [|y xs]; [|done]. cbn [String.concat].
  induction x as [|c x IH]; [done|].
  change (String c x +:+ "") with (String c (x +:+ "")). by rewrite <- IH.
Qed.

Lemma fromhex_hex_of_byte b s :
  fromhex_from None (hex_of_byte b +:+ s) = (b ::.) <$> fromhex_from None s.
Proof. destruct b; reflexivity. Qed.

(** [bytes.fromhex] undoes [hex()], the prefix apart. *)
Lemma fromhex_hex bs : fromhex (str_drop 2 (hex bs)) = Some bs.
Proof.
  unfold hex, fromhex. change (str_drop 2 ("0x" +:+ ?s)) with s.
  induction bs as [|b bs IH]; [done|].
  rewrite fmap_cons, concat_empty_cons, fromhex_hex_of_byte, IH. done.
Qed.

Lemma py_sum_zero bs : py_sum bs = 0%N ↔ Forall (λ b, b = Byte.x00) bs.
Proof.
  induction bs as [|b bs IH]; [by split; [constructor|]|].
  rewrite Forall_cons, <- IH. cbn [py_sum foldr].
  change (foldr _ 0%N bs) with (py_sum bs).
  split.
  - intros Hsum. assert (Byte.to_N b = 0%N) as Hb by lia.
    split; [|lia]. by destruct b.
  - intros [-> ->]. done.
Qed.

Lemma bytes_index_first pre needle post :
  (∀ j, j < length pre → ¬ needle `prefix_of` drop j (pre ++ needle ++ post)) →
  bytes_index (pre ++ needle ++ post) needle = Some (length pre).
Proof.
  induction pre as [|p pre IH]; intros Hfirst.
  - cbn [app length]. destruct (needle ++ post) eqn:Happ; cbn [bytes_index];
      rewrite bool_decide_eq_true_2; try done; rewrite <- Happ;
      by apply prefix_app_r.
  - cbn [app bytes_index].
    rewrite bool_decide_eq_false_2 by (apply (Hfirst 0); simpl; lia).
    rewrite IH; [done|]. intros j Hj. apply (Hfirst (S j)). simpl. lia.
Qed.

(** X16. A ds-note entry is decoded from its call data: when the first
    topic is a selector of the contract followed by zero bytes only, and
    the data is the hex of some bytes in which the selector first occurs
    behind [pre], [_decode_ds_note] hands [decode_input] the bytes from
    the selector on; what it returns is the event named after the
    selector, at the address of the entry, with the decoded arguments
    paired with the inputs of the method. A [ValueError] of
    [decode_input] makes the decoder decline; any other exception of the
    contract leaves it. *)
Theorem ds_note_decodes_call (l : log) (c : contract)
    (selector padding : list Byte.byte) (rest : list (list Byte.byte))
    (name : string) (pre calldata : list Byte.byte) :
  topics l = (selector ++ padding) :: rest →
  length selector = 4 →
  Forall (λ b, b = Byte.x00) padding →
  selectors c !! hex selector = Some name →
  data l = hex (pre ++ selector ++ calldata) →
  (∀ j, j < length pre →
     ¬ selector `prefix_of` drop j (pre ++ selector ++ calldata)) →
  _decode_ds_note l c =
    match decode_input c (selector ++ calldata) with
    | Return (func, args) =>
        match method_inputs c (hex selector) with
        | Return inputs =>
            Return (Some (Decoded
              (Events.Event name (address l) true
                 (zip_with (λ arg abi, Events.Datum abi.1 abi.2 arg true)
                    args inputs))))
        | Raise e => Raise e
        end
    | Raise ValueError => Return None
    | Raise e => Raise e
    end.
Proof.
  intros Htopics Hlen Hpad Hsel Hdata Hfirst.
  unfold _decode_ds_note. rewrite Htopics.
  rewrite take_app_length' by done. rewrite drop_app_length' by done.
  rewrite Hsel. apply py_sum_zero in Hpad. rewrite Hpad. cbn [N.eqb negb].
  rewrite Hdata, fromhex_hex. unfold try_decode_input.
  rewrite bytes_index_first by done. rewrite drop_app_length.
  by destruct (decode_input c (selector ++ calldata)) as [[func args]|[]].
Qed.

(** The sample entry: one word of offset, then the selector and its
    argument. *)
Lemma ds_note_decodes_call_witness :
  _decode_ds_note (note_log "0xA1" 0) sample_contract
  = Return (Some (Decoded (Events.Event "rely" "0xA1" true
                             [Events.Datum "usr" "address" (Events.VInt 9) true]))).
Proof.
  etrans.
  - apply (ds_note_decodes_call (note_log "0xA1" 0) sample_contract
             unknown_topic (replicate 28 Byte.x00) [] "rely"
             (word_of 32) (word_of 9)).
    + reflexivity.
    + reflexivity.
    + by apply Forall_replicate.
    + by vm_compute.
    + by vm_compute.
    + intros j Hj Hpre. apply (bool_decide_pack _) in Hpre.
      do 32 (destruct j as [|j]; [by vm_compute in Hpre|]).
      simpl in Hj. lia.
  - by vm_compute.
Defined.

End DecodeFacts.

(** ** Properties of the event watcher *)
Module WatcherFacts.
Import Py Watcher.

(** *** One visit of the poll loop *)

(** What a visit does to the object it visits: it keeps [repeat] and
    the timestamp, never resets the flag, and enqueues at most one task,
    only with the flag set. *)
Lemma visit_object w sleep_time key elem :
  objects w !! key = Some elem →
  ∃ elem',
    objects (visit (w, sleep_time) key).1 = <[key := elem']> (objects w) ∧
    repeat elem' = repeat elem ∧
    last_trigger_time elem' = last_trigger_time elem ∧
    (_cooldown_time_over elem = true → _cooldown_time_over elem' = true) ∧
    (_queue (visit (w, sleep_time) key).1 = _queue w ∨
     ∃ events_data,
       _queue (visit (w, sleep_time) key).1 = _queue w ++ [(key, events_data)] ∧
       _cooldown_time_over elem' = true) ∧
    target_events_watch_data (visit (w, sleep_time) key).1
    = target_events_watch_data w.
Proof.
  intros Helem. unfold visit. rewrite Helem.
  unfold time, cd_time_over_getter.
  destruct (Qle_bool (delay elem)
              (clock w (reads w) - last_trigger_time elem)) eqn:Hover.
  - cbn. case_bool_decide; cbn; eexists; split_and!; try done; eauto.
  - destruct (_cooldown_time_over elem) eqn:Hflag; cbn.
    + case_bool_decide; cbn; eexists; split_and!; try done; eauto.
    + destruct (Qle_bool (delay elem)
                  (clock w (S (reads w)) - last_trigger_time elem)); cbn;
        eexists; split_and!; try done; eauto.
Qed.

Lemma visit_missing w sleep_time key :
  objects w !! key = None → visit (w, sleep_time) key = (w, sleep_time).
Proof. intros Hnone. unfold visit. by rewrite Hnone. Qed.

(** Splits on whether the visited object exists, and on whether it is the
    object [k] a statement is about. *)
Ltac visit_at w sleep_time key k :=
  destruct (objects w !! key) as [elem|] eqn:Helem;
  [destruct (visit_object w sleep_time key elem Helem)
     as (elem' & Hobj & Hrep & Htime & Hflag & Hqueue & Htargets);
   try rewrite Hobj;
   try (destruct (decide (key = k)) as [<-|Hne];
        [rewrite ?lookup_insert_eq, ?Helem
        |rewrite ?lookup_insert_ne by done])
  |rewrite ?visit_missing by done].

Lemma visit_targets w sleep_time key :
  target_events_watch_data (visit (w, sleep_time) key).1
  = target_events_watch_data w.
Proof. visit_at w sleep_time key key; done. Qed.

Lemma visit_repeats w sleep_time key k :
  repeats (visit (w, sleep_time) key).1 k = repeats w k.
Proof. unfold repeats. visit_at w sleep_time key k; done. Qed.

Lemma visit_last_trigger_time w sleep_time key k :
  last_trigger_time <$> objects (visit (w, sleep_time) key).1 !! k
  = last_trigger_time <$> objects w !! k.
Proof. visit_at w sleep_time key k; simpl; congruence. Qed.

Lemma visit_flag_kept w sleep_time key k :
  _cooldown_time_over <$> objects w !! k = Some true →
  _cooldown_time_over <$> objects (visit (w, sleep_time) key).1 !! k
  = Some true.
Proof.
  visit_at w sleep_time key k; simpl; try done.
  intros [= Hk]. by rewrite Hflag.
Qed.

Lemma visit_queue w sleep_time key :
  ∃ new_tasks,
    _queue (visit (w, sleep_time) key).1 = _queue w ++ new_tasks ∧
    Forall (λ task,
              _cooldown_time_over <$>
                objects (visit (w, sleep_time) key).1 !! task.1 = Some true)
      new_tasks.
Proof.
  destruct (objects w !! key) as [elem|] eqn:Helem.
  - destruct (visit_object w sleep_time key elem Helem)
      as (elem' & Hobj & _ & _ & _ & [Hqueue|(evs & Hqueue & Hset)] & _).
    + exists []. rewrite app_nil_r. split; [done|constructor].
    + exists [(key, evs)]. split; [done|]. rewrite Forall_singleton, Hobj.
      cbn [fst]. rewrite lookup_insert_eq. simpl. by rewrite Hset.
  - rewrite visit_missing by done. exists [].
    rewrite app_nil_r. split; [done|constructor].
Qed.

(** *** One pass of the poll loop *)

Lemma for_loop_targets l w sleep_time :
  target_events_watch_data (foldl visit (w, sleep_time) l).1
  = target_events_watch_data w.
Proof.
  revert w sleep_time. induction l as [|key l IH]; intros w s; [done|].
  cbn [foldl]. destruct (visit (w, s) key) as [w' s'] eqn:Hvisit.
  rewrite IH. by rewrite <- (visit_targets w s key), Hvisit.
Qed.

Lemma for_loop_repeats l w sleep_time k :
  repeats (foldl visit (w, sleep_time) l).1 k = repeats w k.
Proof.
  revert w sleep_time. induction l as [|key l IH]; intros w s; [done|].
  cbn [foldl]. destruct (visit (w, s) key) as [w' s'] eqn:Hvisit.
  rewrite IH. by rewrite <- (visit_repeats w s key), Hvisit.
Qed.

Lemma for_loop_last_trigger_time l w sleep_time k :
  last_trigger_time <$> objects (foldl visit (w, sleep_time) l).1 !! k
  = last_trigger_time <$> objects w !! k.
Proof.
  revert w sleep_time. induction l as [|key l IH]; intros w s; [done|].
  cbn [foldl]. destruct (visit (w, s) key) as [w' s'] eqn:Hvisit.
  rewrite IH. by rewrite <- (visit_last_trigger_time w s key), Hvisit.
Qed.

Lemma for_loop_flag_kept l w sleep_time k :
  _cooldown_time_over <$> objects w !! k = Some true →
  _cooldown_time_over <$> objects (foldl visit (w, sleep_time) l).1 !! k
  = Some true.
Proof.
  revert w sleep_time. induction l as [|key l IH]; intros w s Hk; [done|].
  cbn [foldl]. destruct (visit (w, s) key) as [w' s'] eqn:Hvisit.
  apply IH. pose proof (visit_flag_kept w s key k Hk) as Hkept.
  by rewrite Hvisit in Hkept.
Qed.

Lemma for_loop_queue l w sleep_time :
  ∃ new_tasks,
    _queue (foldl visit (w, sleep_time) l).1 = _queue w ++ new_tasks ∧
    Forall (λ task,
              _cooldown_time_over <$>
                objects (foldl visit (w, sleep_time) l).1 !! task.1 = Some true)
      new_tasks.
Proof.
  revert w sleep_time. induction l as [|key l IH]; intros w s.
  { exists []. rewrite app_nil_r. split; [done|constructor]. }
  cbn [foldl]. destruct (visit_queue w s key) as (new1 & Hq1 & Hset1).
  destruct (visit (w, s) key) as [w' s'] eqn:Hvisit. simpl in Hq1, Hset1.
  destruct (IH w' s') as (new2 & Hq2 & Hset2).
  exists (new1 ++ new2). split.
  - by rewrite Hq2, Hq1, app_assoc.
  - apply Forall_app. split; [|done].
    eapply Forall_impl; [exact Hset1|]. intros task Htask.
    by apply for_loop_flag_kept.
Qed.

Lemma watch_pass_unfold w :
  watch_pass w =
    (with_targets
       (filter (λ key, repeats w key = true) (target_events_watch_data w))
       (foldl visit (w, 2%Q) (target_events_watch_data w)).1,
     (foldl visit (w, 2%Q) (target_events_watch_data w)).2).
Proof.
  unfold watch_pass.
  pose proof (for_loop_targets (target_events_watch_data w) w 2%Q) as Ht.
  pose proof (for_loop_repeats (target_events_watch_data w) w 2%Q) as Hr.
  destruct (foldl visit (w, 2%Q) (target_events_watch_data w)) as [w' s]
    eqn:Hfold.
  rewrite ?Hfold in Ht, Hr. simpl in *. rewrite Ht. do 2 f_equal.
  apply list_filter_iff. intros key. by rewrite Hr.
Qed.

(** *** Registration *)

Lemma add_event_callback_registers ev name dly rep from_block w :
  let w' := (add_event_callback ev (Callable name) dly rep from_block w).2 in
  target_events_watch_data w'
  = target_events_watch_data w ++ [fresh_key w] ∧
  repeats w' (fresh_key w) = rep ∧
  objects w !! fresh_key w = None.
Proof.
  assert (objects w !! fresh_key w = None) as Hfresh.
  { apply not_elem_of_dom. unfold fresh_key. apply is_fresh. }
  unfold add_event_callback, _add_event_callback, EventWatchData_init, time.
  destruct (_has_started w); cbn; unfold repeats, fresh_key in *; cbn;
    by rewrite lookup_insert_eq.
Qed.

(** *** The claims *)

(** C7 (amended). The poll loop ends every pass by dropping from the
    active set each subscription whose [repeat] is false and keeping the
    others, whatever the pass observed: a subscription registered with
    [repeat=False] is in the active set after its registration and is no
    longer in it after the next pass, whether or not that pass saw its
    cooldown elapsed and whether or not any log matched. *)
Theorem watch_pass_prunes (w : EventWatcher) (ev name : string)
    (dly : seconds) (from_block : option Z) :
  target_events_watch_data (watch_pass w).1
  = filter (λ key, repeats w key = true) (target_events_watch_data w) ∧
  let w' := (add_event_callback ev (Callable name) dly false from_block w).2 in
  fresh_key w ∈ target_events_watch_data w' ∧
  fresh_key w ∉ target_events_watch_data (watch_pass w').1.
Proof.
  split; [by rewrite watch_pass_unfold|].
  destruct (add_event_callback_registers ev name dly false from_block w)
    as (Htargets & Hrepeat & _).
  cbn zeta. split.
  - rewrite Htargets. apply elem_of_app. right. apply list_elem_of_here.
  - rewrite watch_pass_unfold. cbn [fst with_targets target_events_watch_data].
    rewrite list_elem_of_filter. intros [Hrep _]. congruence.
Qed.

(** The subscription of [once_watcher] has a delay of two seconds; the
    first pass reads the clock at 0.1 s and 0.2 s, finds the cooldown not
    over (the flag is still unset afterwards), enqueues nothing, and
    removes the subscription. *)
Lemma non_repeating_removed_before_cooldown :
  target_events_watch_data once_watcher = [0] ∧
  repeats once_watcher 0 = false ∧
  cooldown_state (watch_pass once_watcher).1 0 = Some (false, tenths 0) ∧
  reads (watch_pass once_watcher).1 = 3 ∧
  _queue (watch_pass once_watcher).1 = [] ∧
  target_events_watch_data (watch_pass once_watcher).1 = [].
Proof. by vm_compute. Qed.

(** Once the guard of a visit has read the cooldown as over, the rest of
    the visit (the poll, the enqueueing) leaves the flag and the
    timestamp as the guard left them. *)
Lemma visit_after_guard w sleep_time key elem :
  objects w !! key = Some elem →
  (cd_time_over_getter (clock w (reads w)) elem).1 = true →
  cooldown_state (visit (w, sleep_time) key).1 key
  = Some (_cooldown_time_over
            (cd_time_over_getter (clock w (reads w)) elem).2,
          last_trigger_time
            (cd_time_over_getter (clock w (reads w)) elem).2).
Proof.
  intros Helem Hover. unfold visit, time, cooldown_state. rewrite Helem.
  cbn [clock reads with_reads].
  destruct (cd_time_over_getter (clock w (reads w)) elem) as [over elem1].
  simpl in Hover. subst over. cbn.
  case_bool_decide; cbn; by rewrite lookup_insert_eq.
Qed.

(** What the guard of a visit reads: the flag as stored, or set by the
    read itself when the delay has elapsed since the last trigger. *)
Lemma getter_reads now elem :
  (cd_time_over_getter now elem).1
  = _cooldown_time_over elem
    || Qle_bool (delay elem) (now - last_trigger_time elem).
Proof.
  unfold cd_time_over_getter.
  destruct (Qle_bool _ _); cbn; [by rewrite orb_true_r|by rewrite orb_false_r].
Qed.

(** The cooldown state a visit leaves, from the one it found: the
    timestamp is the same, and the flag is set when it was set, or when
    the delay has elapsed at the clock reading of the guard, or, if the
    guard read it unset, at the reading of [check_timer]. *)
Lemma visit_cooldown_state w sleep_time key elem :
  objects w !! key = Some elem →
  cooldown_state (visit (w, sleep_time) key).1 key
  = Some (_cooldown_time_over elem
            || Qle_bool (delay elem)
                 (clock w (reads w) - last_trigger_time elem)
            || Qle_bool (delay elem)
                 (clock w (S (reads w)) - last_trigger_time elem),
          last_trigger_time elem).
Proof.
  intros Helem. unfold visit, time, cooldown_state. rewrite Helem.
  unfold cd_time_over_getter.
  destruct (Qle_bool (delay elem)
              (clock w (reads w) - last_trigger_time elem)) eqn:Hover.
  - cbn. rewrite orb_true_r.
    case_bool_decide; cbn; (rewrite lookup_insert_eq; by cbn).
  - destruct (_cooldown_time_over elem) eqn:Hflag; cbn.
    + case_bool_decide; cbn; (rewrite lookup_insert_eq; cbn; by rewrite Hflag).
    + destruct (Qle_bool (delay elem)
                  (clock w (S (reads w)) - last_trigger_time elem)); cbn;
        (rewrite lookup_insert_eq; cbn; by rewrite ?Hflag).
Qed.

(** A visit enqueues nothing, or its guard has read the cooldown as over
    and it enqueues one task with the new entries of the filter; the flag
    is then set and the timestamp is the one the visit found. *)
Lemma visit_enqueues w sleep_time key elem :
  objects w !! key = Some elem →
  _queue (visit (w, sleep_time) key).1 = _queue w ∨
  ((cd_time_over_getter (clock w (reads w)) elem).1 = true ∧
   new_entries (_event_filter elem) ≠ [] ∧
   _queue (visit (w, sleep_time) key).1
   = _queue w ++ [(key, new_entries (_event_filter elem))] ∧
   cooldown_state (visit (w, sleep_time) key).1 key
   = Some (true, last_trigger_time elem)).
Proof.
  intros Helem. unfold visit, time, cooldown_state. rewrite Helem.
  unfold cd_time_over_getter.
  destruct (Qle_bool (delay elem)
              (clock w (reads w) - last_trigger_time elem)) eqn:Hover.
  - cbn. case_bool_decide as Hlen; cbn; [right|by left].
    rewrite lookup_insert_eq. cbn. split_and!; try done.
    by destruct (new_entries (_event_filter elem)).
  - destruct (_cooldown_time_over elem) eqn:Hflag; cbn.
    + case_bool_decide as Hlen; cbn; [right|by left].
      rewrite lookup_insert_eq. cbn. rewrite Hflag. split_and!; try done.
      by destruct (new_entries (_event_filter elem)).
    + left. by destruct (Qle_bool _ _).
Qed.

(** The claim as worded fails on [busy_watcher]: its subscription has the
    flag unset before the pass; the pass finds the entry, enqueues the
    task, and leaves the flag set. The timestamp is the same. *)
Lemma poll_sets_cooldown_flag :
  cooldown_state busy_watcher 0 = Some (false, tenths 0) ∧
  _queue busy_watcher = [] ∧
  _queue (watch_pass busy_watcher).1 = [(0, [reported_entry])] ∧
  cooldown_state (watch_pass busy_watcher).1 0 = Some (true, tenths 0) ∧
  cooldown_state (watch_pass busy_watcher).1 0 ≠ cooldown_state busy_watcher 0.
Proof. by vm_compute. Qed.

(** C8 (amended). The poll loop never moves a last-trigger timestamp and
    never unsets a cooldown-elapsed flag, but it does set the flag: a
    visit leaves the timestamp it found, and leaves the flag set when it
    was set or when the delay has elapsed at a clock reading of the visit
    (that of the guard or, if the guard read the flag unset, that of
    [check_timer]). A visit that enqueues a task has read the cooldown as
    over, so it leaves the flag set, with the timestamp it found; what
    follows the guard in it (polling the filter, enqueueing the task)
    changes neither. Over a whole pass: every last-trigger timestamp is
    as before the pass; each task enqueued is for a subscription whose
    flag is set after the pass and whose timestamp is the one from before
    it; no flag that was set is unset. The dispatched [_trigger_callback]
    is what unsets the flag and moves the timestamp to the current
    time. *)
Theorem poll_never_resets_cooldown (w : EventWatcher) (key : nat)
    (sleep_time : seconds) (events_data : list Decode.log) :
  (∀ elem,
     objects w !! key = Some elem →
     cooldown_state (visit (w, sleep_time) key).1 key
     = Some (_cooldown_time_over elem
               || Qle_bool (delay elem)
                    (clock w (reads w) - last_trigger_time elem)
               || Qle_bool (delay elem)
                    (clock w (S (reads w)) - last_trigger_time elem),
             last_trigger_time elem)) ∧
  (∀ elem,
     objects w !! key = Some elem →
     _queue (visit (w, sleep_time) key).1 = _queue w ∨
     ((cd_time_over_getter (clock w (reads w)) elem).1 = true ∧
      new_entries (_event_filter elem) ≠ [] ∧
      _queue (visit (w, sleep_time) key).1
      = _queue w ++ [(key, new_entries (_event_filter elem))] ∧
      cooldown_state (visit (w, sleep_time) key).1 key
      = Some (true, last_trigger_time elem))) ∧
  (∀ elem,
     (cd_time_over_getter (clock w (reads w)) elem).1
     = _cooldown_time_over elem
       || Qle_bool (delay elem)
            (clock w (reads w) - last_trigger_time elem)) ∧
  (∀ elem,
     objects w !! key = Some elem →
     (cd_time_over_getter (clock w (reads w)) elem).1 = true →
     cooldown_state (visit (w, sleep_time) key).1 key
     = Some (_cooldown_time_over
               (cd_time_over_getter (clock w (reads w)) elem).2,
             last_trigger_time
               (cd_time_over_getter (clock w (reads w)) elem).2)) ∧
  last_trigger_time <$> objects (watch_pass w).1 !! key
  = last_trigger_time <$> objects w !! key ∧
  (∃ new_tasks,
     _queue (watch_pass w).1 = _queue w ++ new_tasks ∧
     Forall (λ task,
               ∃ d, objects w !! task.1 = Some d ∧
                    cooldown_state (watch_pass w).1 task.1
                    = Some (true, last_trigger_time d))
       new_tasks) ∧
  (_cooldown_time_over <$> objects w !! key = Some true →
   _cooldown_time_over <$> objects (watch_pass w).1 !! key = Some true) ∧
  cooldown_state (_trigger_callback key events_data w) key
  = (λ _, (false, clock w (reads w))) <$> objects w !! key.
Proof.
  split; [intros elem; apply visit_cooldown_state|].
  split; [intros elem; apply visit_enqueues|].
  split; [intros elem; apply getter_reads|].
  split; [intros elem; apply visit_after_guard|].
  rewrite watch_pass_unfold. cbn [fst objects with_targets _queue].
  split_and!.
  - apply for_loop_last_trigger_time.
  - destruct (for_loop_queue (target_events_watch_data w) w 2%Q)
      as (new_tasks & Hqueue & Hset).
    exists new_tasks. split; [done|].
    eapply Forall_impl; [exact Hset|]. intros [k evs] Hk. cbn [fst] in *.
    pose proof (for_loop_last_trigger_time
                  (target_events_watch_data w) w 2%Q k) as Htime.
    unfold cooldown_state. cbn [objects with_targets].
    set (o' := objects (foldl visit (w, 2%Q) (target_events_watch_data w)).1)
      in *.
    destruct (o' !! k) as [d'|]; [|done].
    destruct (objects w !! k) as [d|]; [|done].
    exists d. split; [done|]. simpl in *. congruence.
  - apply for_loop_flag_kept.
  - unfold _trigger_callback, cooldown_state, time.
    destruct (objects w !! key) as [d|] eqn:Hd; [|by rewrite Hd].
    cbn. by rewrite lookup_insert_eq.
Qed.

(** On [busy_watcher]: the pass finds the entry and enqueues the task
    with the flag set and the timestamp of the registration; running the
    task unsets the flag, stamps the time of the run, and calls the
    callback once. *)
Lemma poll_never_resets_cooldown_witness :
  _queue (watch_pass busy_watcher).1 = [(0, [reported_entry])] ∧
  cooldown_state (watch_pass busy_watcher).1 0 = Some (true, tenths 0) ∧
  cooldown_state (execute_pass (watch_pass busy_watcher).1) 0
  = Some (false, tenths 2) ∧
  calls (execute_pass (watch_pass busy_watcher).1)
  = [("on_transfer", reported_entry)].
Proof.
  destruct (poll_never_resets_cooldown
              (with_queue [] (watch_pass busy_watcher).1) 0 2%Q
              [reported_entry])
    as (_ & _ & _ & _ & _ & _ & _ & Hrun).
  split_and!; [by vm_compute..| |by vm_compute].
  assert (execute_pass (watch_pass busy_watcher).1
          = _trigger_callback 0 [reported_entry]
              (with_queue [] (watch_pass busy_watcher).1)) as ->
    by (by vm_compute).
  rewrite Hrun. by vm_compute.
Defined.

(** C10. [stop(wait=True)] on a watcher whose threads were never started
    sets the kill flag and raises the [RuntimeError] of joining a thread
    that was not started. *)
Theorem stop_wait_idle_raises (w : EventWatcher) :
  _watcher_thread w = Unstarted →
  stop true w
  = (Raise (RuntimeError "cannot join thread before it is started"),
     with_kill true w).
Proof. intros Hidle. unfold stop. cbn. by rewrite Hidle. Qed.

Lemma stop_wait_idle_raises_witness :
  stop true (EventWatcher_init tenths 100)
  = (Raise (RuntimeError "cannot join thread before it is started"),
     with_kill true (EventWatcher_init tenths 100)).
Proof. apply (stop_wait_idle_raises (EventWatcher_init tenths 100)). reflexivity. Defined.

(** The watcher is idle, threads unstarted, from its creation until the
    first registration: [stop(wait=False)] does not start them. *)
Lemma idle_until_registered clk head n :
  _watcher_thread (Nat.iter n (λ w, (stop false w).2)
                     (EventWatcher_init clk head)) = Unstarted ∧
  _has_started (Nat.iter n (λ w, (stop false w).2)
                  (EventWatcher_init clk head)) = false.
Proof.
  induction n as [|n [IH1 IH2]]; [done|].
  change (Nat.iter (S n) ?f ?x) with (f (Nat.iter n f x)).
  by unfold stop; cbn [snd with_kill _watcher_thread _has_started].
Qed.

(** After a registration the threads run, and the same call returns. *)
Example stop_wait_running_returns :
  (stop true once_watcher).1 = Return tt ∧
  _watcher_thread (stop true once_watcher).2 = Joined ∧
  _callback_thread (stop true once_watcher).2 = Joined.
Proof. by vm_compute. Qed.

(** *** Sleep time *)

Lemma py_min_le_l a b : Qle (py_min a b) a.
Proof.
  unfold py_min. destruct (Qle_bool a b) eqn:Hab; [apply Qle_refl|].
  apply Qlt_le_weak, Qnot_le_lt. intros Hle.
  apply Qle_bool_iff in Hle. congruence.
Qed.

Lemma py_min_le_r a b : Qle (py_min a b) b.
Proof.
  unfold py_min. destruct (Qle_bool a b) eqn:Hab; [|apply Qle_refl].
  by apply Qle_bool_iff.
Qed.

Lemma visit_sleep_le w s key : Qle (visit (w, s) key).2 s.
Proof.
  unfold visit. destruct (objects w !! key) as [elem|]; [|apply Qle_refl].
  unfold time, cd_time_over_getter, check_timer.
  destruct (Qle_bool (delay elem) _); cbn.
  - apply py_min_le_l.
  - destruct (_cooldown_time_over elem); cbn; apply py_min_le_l.
Qed.

Lemma for_loop_sleep_le l w s : Qle (foldl visit (w, s) l).2 s.
Proof.
  revert w s. induction l as [|key l IH]; intros w s; [apply Qle_refl|].
  cbn [foldl]. destruct (visit (w, s) key) as [w' s'] eqn:Hvisit.
  eapply Qle_trans; [apply IH|].
  pose proof (visit_sleep_le w s key) as Hle. by rewrite Hvisit in Hle.
Qed.

Lemma visit_polled w s key d :
  objects w !! key = Some d → _cooldown_time_over d = true →
  Qle (visit (w, s) key).2 (delay d).
Proof.
  intros Hd Hflag. unfold visit. rewrite Hd.
  unfold time, cd_time_over_getter.
  destruct (Qle_bool (delay d) _); cbn; rewrite ?Hflag; cbn; apply py_min_le_r.
Qed.

Lemma visit_delay w s key k :
  delay <$> objects (visit (w, s) key).1 !! k = delay <$> objects w !! k.
Proof.
  unfold visit. destruct (objects w !! key) as [elem|] eqn:Helem; [|done].
  unfold time, cd_time_over_getter, check_timer.
  destruct (decide (key = k)) as [<-|Hne].
  - rewrite Helem.
    destruct (Qle_bool (delay elem) _); cbn.
    + case_bool_decide; cbn; by rewrite lookup_insert_eq.
    + destruct (_cooldown_time_over elem); cbn.
      * case_bool_decide; cbn; by rewrite lookup_insert_eq.
      * destruct (Qle_bool (delay elem) _); cbn; by rewrite lookup_insert_eq.
  - destruct (Qle_bool (delay elem) _); cbn.
    + case_bool_decide; cbn; by rewrite lookup_insert_ne.
    + destruct (_cooldown_time_over elem); cbn.
      * case_bool_decide; cbn; by rewrite lookup_insert_ne.
      * destruct (Qle_bool (delay elem) _); cbn; by rewrite lookup_insert_ne.
Qed.

Lemma for_loop_sleep_polled l w s key dly :
  key ∈ l →
  _cooldown_time_over <$> objects w !! key = Some true →
  delay <$> objects w !! key = Some dly →
  Qle (foldl visit (w, s) l).2 dly.
Proof.
  revert w s. induction l as [|k l IH]; intros w s Hin Hflag Hdelay.
  { by apply elem_of_nil in Hin. }
  cbn [foldl]. destruct (visit (w, s) k) as [w' s'] eqn:Hvisit.
  destruct (decide (k = key)) as [->|Hne].
  - eapply Qle_trans; [apply for_loop_sleep_le|].
    destruct (objects w !! key) as [d|] eqn:Hd; [|done].
    simpl in Hflag, Hdelay. injection Hflag as Hflag. injection Hdelay as <-.
    pose proof (visit_polled w s key d Hd Hflag) as Hle.
    by rewrite Hvisit in Hle.
  - apply elem_of_cons in Hin as [?|Hin]; [done|].
    apply IH; [done|..].
    + pose proof (visit_flag_kept w s k key Hflag) as Hkept.
      by rewrite Hvisit in Hkept.
    + pose proof (visit_delay w s k key) as Hkept.
      rewrite Hvisit in Hkept. simpl in Hkept. by rewrite Hkept.
Qed.

(** X17. The sleep time a pass of the poll loop ends with is at most two
    seconds, and at most the delay of every active subscription whose
    cooldown flag was set when the pass began. *)
Theorem watch_pass_sleep_time (w : EventWatcher) :
  Qle (watch_pass w).2 2 ∧
  (∀ key d,
     key ∈ target_events_watch_data w → objects w !! key = Some d →
     _cooldown_time_over d = true → Qle (watch_pass w).2 (delay d)).
Proof.
  rewrite watch_pass_unfold. cbn [snd]. split; [apply for_loop_sleep_le|].
  intros key d Hin Hd Hflag.
  apply (for_loop_sleep_polled _ _ _ key); [done|rewrite Hd; cbn; by f_equal..].
Qed.

(** *** Dispatch *)





(** *** Registration *)



(** X20. The first [add_event_callback] on a watcher starts both threads
    before it looks at its arguments: also when the callback is not
    callable, in which case it raises [TypeError] and registers nothing.
    After it, [stop(wait=True)] returns, with the kill flag set and both
    threads joined. *)
Theorem first_registration_starts_threads (ev : string) (cb : py_callback)
    (dly : seconds) (rep : bool) (from_block : option Z) (w : EventWatcher) :
  _has_started w = false →
  let w' := (add_event_callback ev cb dly rep from_block w).2 in
  _has_started w' = true ∧
  _watcher_thread w' = Running ∧ _callback_thread w' = Running ∧
  (cb = NotCallable →
   (add_event_callback ev cb dly rep from_block w).1
   = Raise (TypeError "Argument 'callback' argument must be a callable.") ∧
   target_events_watch_data w' = target_events_watch_data w ∧
   objects w' = objects w) ∧
  (stop true w').1 = Return tt ∧
  _kill (stop true w').2 = true ∧
  _watcher_thread (stop true w').2 = Joined ∧
  _callback_thread (stop true w').2 = Joined.
Proof.
  intros Hidle. unfold add_event_callback. rewrite Hidle.
  destruct cb as [name|]; cbn; split_and!; try done.
Qed.

(** A registration that fails on a fresh watcher, then [stop()]. *)
Lemma first_registration_starts_threads_witness :
  (stop true (add_event_callback "Transfer" NotCallable 2%Q true None
                (EventWatcher_init tenths 100)).2).1 = Return tt.
Proof.
  destruct (first_registration_starts_threads "Transfer" NotCallable 2%Q true
              None (EventWatcher_init tenths 100)) as (_ & _ & _ & _ & H & _).
  - reflexivity.
  - exact H.
Defined.

End WatcherFacts.
